(** * geometrize: the quadratic Bezier shape and the model's step

    A shallow embedding of [geometrize/model.cpp] (class [Model::ModelImpl])
    and of [quadraticbezier.cpp] (class [QuadraticBezier]), with the
    properties of the specification that concern them.

    Conventions.
    - [std::int32_t] values are integers of [Z]; a conversion or an
      arithmetic result is brought back into the 32-bit range by [int32].
    - The process-wide random generator is an explicit stream of raw draws
      threaded through the code in a small state-and-failure monad [Rand].
    - Scores ([float] in the source) are real numbers: rounding of the
      floating-point operations is not modelled.
    - Indexing a [std::vector] out of range is undefined in the source; it is
      a failure ([None]) here. *)

From Stdlib Require Import ZArith List String Ascii Reals Lra Lia.
From stdpp Require Import base list.

Local Open Scope Z_scope.

(** ** Machine integers *)

Module Int.

Definition int32 (z : Z) : Z := (z + 2 ^ 31) mod 2 ^ 32 - 2 ^ 31.

Definition add32 (a b : Z) : Z := int32 (a + b).
Definition sub32 (a b : Z) : Z := int32 (a - b).

(** [std::size_t] is taken to be 64 bits wide. *)
Definition size_t (z : Z) : Z := z mod 2 ^ 64.

End Int.

Import Int.

(** ** The random generator *)

(** The generator state: the raw draws still to come. *)
Definition Rng : Type := nat -> Z.

Definition Rand (A : Type) : Type := Rng -> option (A * Rng).

Definition ret {A : Type} (a : A) : Rand A := fun g => Some (a, g).

Definition bind {A B : Type} (c : Rand A) (k : A -> Rand B) : Rand B :=
  fun g => match c g with
           | Some (a, g') => k a g'
           | None => None
           end.

Definition fail {A : Type} : Rand A := fun _ => None.

Notation "'let*' x ':=' c 'in' k" := (bind c (fun x => k))
  (at level 10, x pattern, c at level 100, k at level 200).

(** Modelled from the spec: [commonutil::randomRange], declared in
    [commonutil.h], a header this development does not cover.  The
    specification asks for draws on the closed range [lo .. hi]; here the next
    raw draw is reduced into that range, so that every value of the range can
    come out and nothing else can when [lo <= hi]. *)
Definition randomRange (lo hi : Z) : Rand Z :=
  fun g => Some (lo + g 0%nat mod (hi - lo + 1), fun n => g (S n)).

(** Modelled from the spec: [commonutil::clamp], declared in [commonutil.h];
    it brings a value into [lower .. upper]. *)
Definition clamp (value lower upper : Z) : Z :=
  Z.max lower (Z.min value upper).

(** ** Scanlines *)

Record Scanline : Type := mkScanline {
  y : Z;
  x1 : Z;
  x2 : Z;
  alpha : Z
}.

(** The pixel [(px, py)] lies on one of the runs of [lines]. *)
Definition covers (lines : list Scanline) (px py : Z) : Prop :=
  exists l, l ∈ lines /\ y l = py /\ x1 l <= px <= x2 l.

(** Modelled from the spec: [Scanline::trim], declared with [Scanline] in a
    header this development does not cover.  It clips every run to the
    rectangle [0 .. w-1] x [0 .. h-1] and drops the runs that are empty
    afterwards. *)
Definition trimHelper (w h : Z) (line : Scanline) : option Scanline :=
  if (y line <? 0) || (h <=? y line) then None
  else
    let a := Z.max (x1 line) 0 in
    let b := Z.min (x2 line) (w - 1) in
    if b <? a then None else Some (mkScanline (y line) a b (alpha line)).

Definition trim (lines : list Scanline) (w h : Z) : list Scanline :=
  omap (trimHelper w h) lines.

(** ** Bresenham's line *)

Definition point : Type := (Z * Z)%type.

(** One run of the error loop along the major axis: [M] moves by [iM] until
    it meets [target]; the minor coordinate [m] moves by [im] when the error
    says so.  [mk] builds the point from the major and minor coordinates.
    The loop body runs at most [fuel] times. *)
Fixpoint bresenham_loop (fuel : nat) (mk : Z -> Z -> point)
    (dM dm iM im target : Z) (error M m : Z) (points : list point)
    : list point :=
  match fuel with
  | O => points
  | S fuel' =>
    if M =? target then points
    else
      let step := (0 <=? error) && (negb (error =? 0) || (0 <? iM)) in
      let error1 := if step then error - dM else error in
      let m1 := if step then m + im else m in
      let error2 := error1 + dm in
      let M1 := M + iM in
      bresenham_loop fuel' mk dM dm iM im target error2 M1 m1
        (points ++ [mk M1 m1])
  end.

(** Modelled from the spec: [commonutil::bresenham], declared in
    [commonutil.h].  The specification names Bresenham's algorithm, one pixel
    per point from the first end to the second; this is the integer error
    form of it, for all octants. *)
Definition bresenham (x1 y1 x2 y2 : Z) : list point :=
  let dx0 := x2 - x1 in
  let ix := Z.sgn dx0 in
  let dx := Z.shiftl (Z.abs dx0) 1 in
  let dy0 := y2 - y1 in
  let iy := Z.sgn dy0 in
  let dy := Z.shiftl (Z.abs dy0) 1 in
  let points := [(x1, y1)] in
  if dy <=? dx then
    bresenham_loop (Z.to_nat (Z.abs dx0)) (fun M m => (M, m))
      dx dy ix iy x2 (dy - Z.shiftr dx 1) x1 y1 points
  else
    bresenham_loop (Z.to_nat (Z.abs dy0)) (fun M m => (m, M))
      dy dx iy ix y2 (dx - Z.shiftr dy 1) y1 x1 points.

(** ** The quadratic Bezier shape *)

(** What a shape sees of the model it was made for: the two accessors
    [Model::getWidth] and [Model::getHeight] (unsigned 32-bit values, the
    dimensions of the target bitmap, which never change). *)
Record Model : Type := mkModel {
  getWidth : Z;
  getHeight : Z
}.

Inductive ShapeTypes : Type :=
| RECTANGLE | ROTATED_RECTANGLE | TRIANGLE | ELLIPSE | ROTATED_ELLIPSE
| CIRCLE | LINE | QUADRATIC_BEZIER | POLYLINE.

Record QuadraticBezier : Type := mkQuadraticBezier {
  m_model : Model;
  m_controlPoints : list point
}.

Module QuadraticBezier.

(** The local [startingPoint] of the constructor; the two draws are taken
    in the order of the arguments. *)
Definition startingPoint (xBound yBound : Z) : Rand point :=
  let* sx := randomRange 0 xBound in
  let* sy := randomRange 0 (sub32 yBound 1) in
  ret (sx, sy).

(** The body of the constructor's loop, run [n] more times. *)
Fixpoint pushPoints (n : nat) (xBound yBound : Z) (start : point)
    (controlPoints : list point) : Rand (list point) :=
  match n with
  | O => ret controlPoints
  | S n' =>
    let* jx := randomRange (-32) 32 in
    let* jy := randomRange (-32) 32 in
    let p := (clamp (add32 (fst start) jx) 0 (sub32 xBound 1),
              clamp (add32 (snd start) jy) 0 (sub32 yBound 1)) in
    pushPoints n' xBound yBound start (controlPoints ++ [p])
  end.

(** [QuadraticBezier::QuadraticBezier(const Model&)] *)
Definition new (model : Model) : Rand QuadraticBezier :=
  let xBound := int32 (getWidth model) in
  let yBound := int32 (getHeight model) in
  let* start := startingPoint xBound yBound in
  let* cps := pushPoints 4 xBound yBound start [] in
  ret (mkQuadraticBezier model cps).

(** [QuadraticBezier::clone]: a fresh shape is constructed for the same
    model, then its control points are overwritten. *)
Definition clone (q : QuadraticBezier) : Rand QuadraticBezier :=
  let* bezier := new (m_model q) in
  ret (mkQuadraticBezier (m_model bezier) (m_controlPoints q)).

Definition scanlineOf (p : point) : Scanline :=
  mkScanline (snd p) (fst p) (fst p) 65535.

(** The loop of [rasterize] over the control points still to visit: [m1]
    is the current control point and [m2] the next one, or [m1] again at the
    end of the vector (the local [m0] of the source is not used). *)
Fixpoint rasterizeLoop (controlPoints : list point) (lines : list Scanline)
    : list Scanline :=
  match controlPoints with
  | [] => lines
  | m1 :: rest =>
    let m2 := match rest with
              | next :: _ => next
              | [] => m1
              end in
    let points := bresenham (fst m1) (snd m1) (fst m2) (snd m2) in
    rasterizeLoop rest (lines ++ map scanlineOf points)
  end.

(** [QuadraticBezier::rasterize] *)
Definition rasterize (q : QuadraticBezier) : list Scanline :=
  let xBound := int32 (getWidth (m_model q)) in
  let yBound := int32 (getHeight (m_model q)) in
  trim (rasterizeLoop (m_controlPoints q) []) xBound yBound.

(** [QuadraticBezier::mutate]: the index is drawn between [0] and
    [size() - 1], computed on [std::size_t], and stored in a
    [std::int32_t]. *)
Definition mutate (q : QuadraticBezier) : Rand QuadraticBezier :=
  let xBound := int32 (getWidth (m_model q)) in
  let yBound := int32 (getHeight (m_model q)) in
  let size := Z.of_nat (length (m_controlPoints q)) in
  let* r := randomRange 0 (size_t (size - 1)) in
  let i := int32 r in
  if i <? 0 then fail
  else
    match m_controlPoints q !! Z.to_nat i with
    | None => fail
    | Some p =>
      let* jx := randomRange (-64) 64 in
      let px := clamp (add32 (fst p) jx) 0 (sub32 xBound 1) in
      let* jy := randomRange (-64) 64 in
      let py := clamp (add32 (snd p) jy) 0 (sub32 yBound 1) in
      ret (mkQuadraticBezier (m_model q)
             (<[Z.to_nat i := (px, py)]> (m_controlPoints q)))
    end.

(** [QuadraticBezier::getType] *)
Definition getType (q : QuadraticBezier) : ShapeTypes := QUADRATIC_BEZIER.

(** The loop of [getRawShapeData] over the control points still to visit. *)
Fixpoint rawLoop (controlPoints : list point) (data : list Z) : list Z :=
  match controlPoints with
  | [] => data
  | p :: rest => rawLoop rest ((data ++ [fst p]) ++ [snd p])
  end.

(** [QuadraticBezier::getRawShapeData] *)
Definition getRawShapeData (q : QuadraticBezier) : list Z :=
  rawLoop (m_controlPoints q) [].

(** A double quote. *)
Definition dquote : string := String (ascii_of_nat 34) EmptyString.

(** [QuadraticBezier::getSvgShapeData].  [SVG_STYLE_HOOK] is a constant
    declared in a header this development does not cover and is a parameter
    here.  The loop
    that would write the path data is commented out in the source. *)
Definition getSvgShapeData (SVG_STYLE_HOOK : string) (q : QuadraticBezier)
    : string :=
  let s := EmptyString in
  let s := (s ++ ("<path d=" ++ dquote))%string in
  let s := (s ++ (dquote ++ " "))%string in
  let s := ((s ++ SVG_STYLE_HOOK) ++ " ")%string in
  let s := (s ++ "/>")%string in
  s.

End QuadraticBezier.

(** ** Bitmaps and the scoring core *)

Module Color.

Record rgba : Type := mkRgba { r : Z; g : Z; b : Z; a : Z }.

End Color.

Abbreviation rgba := Color.rgba.
Abbreviation mkRgba := Color.mkRgba.

(** Modelled from the spec: the [Bitmap] class of [bitmap/bitmap.h], an
    RGBA8 raster of fixed width and height, rows contiguous, read and written
    pixel by pixel.  A pixel of [bmData] stands for its four bytes. *)
Record Bitmap : Type := mkBitmap {
  bmWidth : Z;
  bmHeight : Z;
  bmData : list rgba
}.

Module Bitmap.

(** The constructor [(w, h, fill_rgba)]. *)
Definition new (w h : Z) (color : rgba) : Bitmap :=
  mkBitmap w h (replicate (Z.to_nat (w * h)) color).

Definition fill (bm : Bitmap) (color : rgba) : Bitmap :=
  mkBitmap (bmWidth bm) (bmHeight bm)
           (replicate (length (bmData bm)) color).

Definition index (bm : Bitmap) (x y : Z) : option nat :=
  if (0 <=? x) && (x <? bmWidth bm) && (0 <=? y) && (y <? bmHeight bm)
  then Some (Z.to_nat (y * bmWidth bm + x)) else None.

Definition getPixel (bm : Bitmap) (x y : Z) : rgba :=
  match index bm x y with
  | Some i => default (mkRgba 0 0 0 0) (bmData bm !! i)
  | None => mkRgba 0 0 0 0
  end.

Definition setPixel (bm : Bitmap) (x y : Z) (color : rgba) : Bitmap :=
  match index bm x y with
  | Some i => mkBitmap (bmWidth bm) (bmHeight bm) (<[i := color]> (bmData bm))
  | None => bm
  end.

End Bitmap.

Module core.

Definition sum (l : list Z) : Z := foldr Z.add 0 l.

(** The pixels of the runs, run after run, each from [x1] to [x2]. *)
Definition pixelsOf (lines : list Scanline) : list point :=
  flat_map (fun l => map (fun x => (x, y l)) (seqZ (x1 l) (x2 l - x1 l + 1)))
           lines.

(** The squared error of one pixel, over its four channels. *)
Definition sqDiff (t c : rgba) : Z :=
  (Color.r t - Color.r c) ^ 2 + (Color.g t - Color.g c) ^ 2
  + (Color.b t - Color.b c) ^ 2 + (Color.a t - Color.a c) ^ 2.

Definition sqDiffAt (target other : Bitmap) (p : point) : Z :=
  sqDiff (Bitmap.getPixel target (fst p) (snd p))
         (Bitmap.getPixel other (fst p) (snd p)).

(** All the pixels of a bitmap, row after row. *)
Definition allPixels (bm : Bitmap) : list point :=
  flat_map (fun y => map (fun x => (x, y)) (seqZ 0 (bmWidth bm)))
           (seqZ 0 (bmHeight bm)).

Definition rgbaCount (bm : Bitmap) : Z := bmWidth bm * bmHeight bm * 4.

(** Modelled from the spec: [core::differenceFull], declared in [core.h]:
    [sum] is the total over all pixels and channels of the squared
    difference, and the result is [sqrt (sum / (w * h * 4)) / 255]. *)
Definition differenceFull (target current : Bitmap) : R :=
  let total := sum (map (sqDiffAt target current) (allPixels target)) in
  (sqrt (IZR total / IZR (rgbaCount target)) / 255)%R.

(** What one pass over the runs adds to the accumulator of
    [differencePartial]: for every pixel of every run, minus the old squared
    error, plus the new one. *)
Definition partialDelta (target before after : Bitmap)
    (lines : list Scanline) : Z :=
  sum (map (fun p => sqDiffAt target after p - sqDiffAt target before p)
           (pixelsOf lines)).

(** Modelled from the spec: [core::differencePartial], declared in [core.h]:
    the accumulator starts from [(lastScore * 255)^2 * (w * h * 4)], every
    pixel of every run takes out its old squared error and puts in its new
    one, and the result is [sqrt (max 0 total / (w * h * 4)) / 255]. *)
Definition differencePartial (target before after : Bitmap) (score : R)
    (lines : list Scanline) : R :=
  let count := IZR (rgbaCount target) in
  let total := ((score * 255) ^ 2 * count
                + IZR (partialDelta target before after lines))%R in
  (sqrt (Rmax 0 total / count) / 255)%R.

(** Nearest integer to [n / d] for [0 < d], halves upwards. *)
Definition roundDiv (n d : Z) : Z := (2 * n + d) / (2 * d).

(** Modelled from the spec: [core::computeColor], declared in [core.h]: for
    each of the red, green and blue channels the average over the covered
    pixels of [(T - C) * 255 / alpha + C], rounded and clamped to
    [0 .. 255]; the alpha channel is [alpha].  No pixel covered gives
    [(0, 0, 0, alpha)], and [alpha = 0] gives [(0, 0, 0, 0)]. *)
Definition computeColor (target current : Bitmap) (lines : list Scanline)
    (alpha : Z) : rgba :=
  if alpha =? 0 then mkRgba 0 0 0 0
  else
    let pixels := pixelsOf lines in
    let count := Z.of_nat (length pixels) in
    if count =? 0 then mkRgba 0 0 0 alpha
    else
      let channel (ch : rgba -> Z) :=
        let total :=
          sum (map (fun p =>
                      let t := ch (Bitmap.getPixel target (fst p) (snd p)) in
                      let c := ch (Bitmap.getPixel current (fst p) (snd p)) in
                      (t - c) * 255 + c * alpha) pixels) in
        clamp (roundDiv total (alpha * count)) 0 255 in
      mkRgba (channel Color.r) (channel Color.g) (channel Color.b) alpha.

(** Source-over blending of [color] onto one pixel. *)
Definition blend (color d : rgba) : rgba :=
  let al := Color.a color in
  let mix (ch : rgba -> Z) := roundDiv (ch d * (255 - al) + ch color * al) 255 in
  mkRgba (mix Color.r) (mix Color.g) (mix Color.b)
         (roundDiv (255 * Color.a d + al * (255 - Color.a d)) 255).

(** Modelled from the spec: [core::drawLines], declared in [core.h]: every
    pixel of every run is blended with [color], in order. *)
Definition drawLines (image : Bitmap) (color : rgba) (lines : list Scanline)
    : Bitmap :=
  foldl (fun im p =>
           Bitmap.setPixel im (fst p) (snd p)
             (blend color (Bitmap.getPixel im (fst p) (snd p))))
        image (pixelsOf lines).

End core.

(** ** The shape interface *)

(** The abstract class [Shape] of [shape/shape.h], as far as its
    implementation in [QuadraticBezier] shows it. *)
Class Shape (S : Type) : Type := {
  clone : S -> Rand S;
  rasterize : S -> list Scanline;
  mutate : S -> Rand S;
  getType : S -> ShapeTypes;
  getRawShapeData : S -> list Z;
  getSvgShapeData : string -> S -> string
}.

#[export] Instance QuadraticBezier_Shape : Shape QuadraticBezier := {
  clone := QuadraticBezier.clone;
  rasterize := QuadraticBezier.rasterize;
  mutate := QuadraticBezier.mutate;
  getType := QuadraticBezier.getType;
  getRawShapeData := QuadraticBezier.getRawShapeData;
  getSvgShapeData := QuadraticBezier.getSvgShapeData
}.

(** ** The model *)

#[export] Instance Rlt_decision (x y : R) : Decision (x < y)%R := Rlt_dec x y.

(** [std::min_element]: the position of the first smallest element of the
    range; the position past the end when the range is empty. *)
Fixpoint min_element_from {A : Type} (comp : A -> A -> bool)
    (l : list A) (first smallest : nat) (smallestVal : A) : nat :=
  match l with
  | [] => smallest
  | x :: rest =>
    if comp x smallestVal
    then min_element_from comp rest (S first) first x
    else min_element_from comp rest (S first) smallest smallestVal
  end.

Definition min_element {A : Type} (comp : A -> A -> bool) (l : list A) : nat :=
  match l with
  | [] => 0%nat
  | x :: rest => min_element_from comp rest 1 0 x
  end.

Section ModelImpl.

Context {S : Type} `{Shape S}.

(** [geometrize::State], declared in [state.h]: a shape, the score the
    canvas would have with it, and the alpha it was searched with. *)
Record State : Type := mkState {
  m_shape : S;
  m_score : R;
  m_alpha : Z
}.

(** [geometrize::ShapeResult], declared in [shaperesult.h]. *)
Record ShapeResult : Type := mkShapeResult {
  score : R;
  color : rgba;
  shape : S
}.

Record ModelImpl : Type := mkModelImpl {
  m_target : Bitmap;
  m_current : Bitmap;
  m_lastScore : R
}.

(** [core::bestHillClimbState] is declared in [core.h] and is a parameter:
    what a worker returns from the arguments of the step, the target, the
    canvas, its private buffer and its thread's random generator. *)
Variable bestHillClimbState :
  ShapeTypes -> Z -> Z -> Z -> Z -> Bitmap -> Bitmap -> Bitmap -> Rng -> State.

(** The random generator of the i-th worker thread. *)
Variable threadRng : nat -> Rng.

(** [std::thread::hardware_concurrency()], an unsigned value that may be 0. *)
Variable hardware_concurrency : Z.

(** [ModelImpl(const Bitmap& target, const rgba backgroundColor)] *)
Definition ModelImpl_new (target : Bitmap) (backgroundColor : rgba)
    : ModelImpl :=
  let current := Bitmap.new (bmWidth target) (bmHeight target) backgroundColor in
  mkModelImpl target current (core.differenceFull target current).

(** [ModelImpl(const Bitmap& target, const Bitmap& initial)]; a failed
    assertion is [None]. *)
Definition ModelImpl_new_initial (target initial : Bitmap) : option ModelImpl :=
  if (bmWidth target =? bmWidth initial) && (bmHeight target =? bmHeight initial)
  then Some (mkModelImpl target initial (core.differenceFull target initial))
  else None.

(** [ModelImpl::reset] *)
Definition reset (m : ModelImpl) (backgroundColor : rgba) : ModelImpl :=
  let current := Bitmap.fill (m_current m) backgroundColor in
  mkModelImpl (m_target m) current (core.differenceFull (m_target m) current).

(** [ModelImpl::getWidth] and [ModelImpl::getHeight] *)
Definition ModelImpl_getWidth (m : ModelImpl) : Z := bmWidth (m_target m).

Definition ModelImpl_getHeight (m : ModelImpl) : Z := bmHeight (m_target m).

(** [ModelImpl::getAspectRatio]; the quotient of the two [float] values is a
    quotient of real numbers here. *)
Definition getAspectRatio (m : ModelImpl) : R :=
  if (bmWidth (m_target m) =? 0) || (bmHeight (m_target m) =? 0) then 0%R
  else (IZR (bmWidth (m_target m)) / IZR (bmHeight (m_target m)))%R.

(** [ModelImpl::getTarget] and [ModelImpl::getCurrent], as far as they
    read. *)
Definition getTarget (m : ModelImpl) : Bitmap := m_target m.

Definition getCurrent (m : ModelImpl) : Bitmap := m_current m.

(** The loop of [getHillClimbState] that launches the workers: worker [i]
    copies the canvas into its buffer and searches.  The canvas and the
    target are only read until every worker has been collected, so the value
    of each future is fixed when it is launched. *)
Fixpoint launch (n : nat) (i : nat) (shapeTypes : ShapeTypes)
    (alpha shapeCount maxShapeMutations passes : Z) (m : ModelImpl)
    (futures : list State) : list State :=
  match n with
  | O => futures
  | Datatypes.S n' =>
    let buffer := m_current m in
    let handle := bestHillClimbState shapeTypes alpha shapeCount
                    maxShapeMutations passes (m_target m) (m_current m)
                    buffer (threadRng i) in
    launch n' (Datatypes.S i) shapeTypes alpha shapeCount maxShapeMutations
           passes m (futures ++ [handle])
  end.

(** [ModelImpl::getHillClimbState] *)
Definition getHillClimbState (shapeTypes : ShapeTypes)
    (alpha shapeCount maxShapeMutations passes : Z) (m : ModelImpl)
    : list State :=
  let maxThreads := Z.max 1 hardware_concurrency in
  let futures := launch (Z.to_nat maxThreads) 0 shapeTypes alpha shapeCount
                        maxShapeMutations passes m [] in
  foldl (fun states f => states ++ [f]) [] futures.

(** [ModelImpl::drawShape(shape, alpha)] *)
Definition drawShape (m : ModelImpl) (sh : S) (alpha : Z)
    : ShapeResult * ModelImpl :=
  let lines := rasterize sh in
  let color := core.computeColor (m_target m) (m_current m) lines alpha in
  let before := m_current m in
  let current := core.drawLines (m_current m) color lines in
  let lastScore := core.differencePartial (m_target m) before current
                                          (m_lastScore m) lines in
  (mkShapeResult lastScore color sh, mkModelImpl (m_target m) current lastScore).

(** [ModelImpl::drawShape(shape, color)] *)
Definition drawShapeColor (m : ModelImpl) (sh : S) (color : rgba)
    : ShapeResult * ModelImpl :=
  let lines := rasterize sh in
  let before := m_current m in
  let current := core.drawLines (m_current m) color lines in
  let lastScore := core.differencePartial (m_target m) before current
                                          (m_lastScore m) lines in
  (mkShapeResult lastScore color sh, mkModelImpl (m_target m) current lastScore).

(** The comparison handed to [std::min_element] by [step]. *)
Definition scoreLess (a b : State) : bool :=
  bool_decide (m_score a < m_score b)%R.

(** [ModelImpl::step]; dereferencing the past-the-end iterator is [None]. *)
Definition step (shapeTypes : ShapeTypes)
    (alpha shapeCount maxShapeMutations passes : Z) (m : ModelImpl)
    : option (list ShapeResult * ModelImpl) :=
  let states := getHillClimbState shapeTypes alpha shapeCount
                                  maxShapeMutations passes m in
  let it := min_element scoreLess states in
  match states !! it with
  | None => None
  | Some st =>
    let '(result, m') := drawShape m (m_shape st) alpha in
    Some ([] ++ [result], m')
  end.

End ModelImpl.

(** ** Models that the program can reach *)

Section Evolution.

Context {S : Type} `{Shape S}.

Variable bestHillClimbState :
  ShapeTypes -> Z -> Z -> Z -> Z -> Bitmap -> Bitmap -> Bitmap -> Rng
  -> @State S.
Variable threadRng : nat -> Rng.
Variable hardware_concurrency : Z.

(** The states a model goes through from [m0] on, by [reset], by the two
    [drawShape] and by [step] (the bitmaps are not written from outside
    through [getTarget] and [getCurrent]). *)
Inductive evolves (m0 : ModelImpl) : ModelImpl -> Prop :=
| evolves_refl : evolves m0 m0
| evolves_reset (m : ModelImpl) (backgroundColor : rgba) :
    evolves m0 m -> evolves m0 (reset m backgroundColor)
| evolves_drawShape (m : ModelImpl) (sh : S) (alpha : Z) :
    evolves m0 m -> evolves m0 (snd (drawShape m sh alpha))
| evolves_drawShapeColor (m : ModelImpl) (sh : S) (color : rgba) :
    evolves m0 m -> evolves m0 (snd (drawShapeColor m sh color))
| evolves_step (m m' : ModelImpl) (shapeTypes : ShapeTypes)
    (alpha shapeCount maxShapeMutations passes : Z)
    (results : list ShapeResult) :
    evolves m0 m ->
    step bestHillClimbState threadRng hardware_concurrency shapeTypes alpha
         shapeCount maxShapeMutations passes m = Some (results, m') ->
    evolves m0 m'.

End Evolution.

(** ** Shapes that the program can build *)

(** The value a computation returns from the generator [g]. *)
Definition run {A : Type} (c : Rand A) (g : Rng) : option A :=
  fst <$> c g.

(** The quadratic Beziers of a model: built by the constructor, then cloned
    or mutated any number of times. *)
Inductive reachable (model : Model) : QuadraticBezier -> Prop :=
| reachable_new (g : Rng) (q : QuadraticBezier) :
    run (QuadraticBezier.new model) g = Some q -> reachable model q
| reachable_clone (g : Rng) (q q' : QuadraticBezier) :
    reachable model q -> run (QuadraticBezier.clone q) g = Some q' ->
    reachable model q'
| reachable_mutate (g : Rng) (q q' : QuadraticBezier) :
    reachable model q -> run (QuadraticBezier.mutate q) g = Some q' ->
    reachable model q'.

(** A point inside the bitmap of the model. *)
Definition inBounds (model : Model) (p : point) : Prop :=
  0 <= fst p <= getWidth model - 1 /\ 0 <= snd p <= getHeight model - 1.

(** A point whose coordinates both come out of the clamp of the model. *)
Definition clamped (model : Model) (p : point) : Prop :=
  exists vx vy,
    p = (clamp vx 0 (sub32 (int32 (getWidth model)) 1),
         clamp vy 0 (sub32 (int32 (getHeight model)) 1)).

(** The index that [mutate] draws from the generator. *)
Definition mutateIndex (q : QuadraticBezier) (g : Rng) : nat :=
  Z.to_nat (g 0%nat mod Z.of_nat (length (m_controlPoints q))).

(** The control point that [mutate] writes: the old point moved by the
    jitters [jx] and [jy], clamped. *)
Definition perturbed (model : Model) (p : point) (jx jy : Z) : point :=
  (clamp (add32 (fst p) jx) 0 (sub32 (int32 (getWidth model)) 1),
   clamp (add32 (snd p) jy) 0 (sub32 (int32 (getHeight model)) 1)).

(** [Model::getWidth] and [Model::getHeight] answer with the dimensions of
    the target bitmap of the implementation. *)
Definition modelOf (m : ModelImpl) : Model :=
  mkModel (bmWidth (m_target m)) (bmHeight (m_target m)).

(** A point made from [start] by two jitters of at most [d], clamped. *)
Definition jittered (xBound yBound d : Z) (start p : point) : Prop :=
  exists jx jy,
    - d <= jx <= d /\ - d <= jy <= d
    /\ p = (clamp (add32 (fst start) jx) 0 (sub32 xBound 1),
            clamp (add32 (snd start) jy) 0 (sub32 yBound 1)).

(** The number of steps of Bresenham's line between two points. *)
Definition steps (p p' : point) : Z :=
  Z.max (Z.abs (fst p' - fst p)) (Z.abs (snd p' - snd p)).

(** A model as one of the two constructors returns it for [target]. *)
Definition constructed (target : Bitmap) (m0 : ModelImpl) : Prop :=
  (exists backgroundColor, m0 = ModelImpl_new target backgroundColor)
  \/ (exists initial, ModelImpl_new_initial target initial = Some m0).

(** The runs that the loop of [rasterize] makes for the segments between
    successive control points. *)
Definition polygonLines (controlPoints : list point) : list Scanline :=
  flat_map (fun s => map QuadraticBezier.scanlineOf
                         (bresenham (fst s.1) (snd s.1) (fst s.2) (snd s.2)))
           (zip controlPoints (tail controlPoints)).

(** The control polygon in the words of the specification: the pixels
    [(x, y)] of the Bresenham segments between successive control points. *)
Definition polygonPixels (controlPoints : list point) : list point :=
  flat_map (fun s => bresenham (fst s.1) (snd s.1) (fst s.2) (snd s.2))
           (zip controlPoints (tail controlPoints)).

(** The pixel [p] lies in the bitmap rectangle [0, w) x [0, h) of the
    model. *)
Definition insideBitmap (model : Model) (p : point) : bool :=
  (0 <=? fst p) && (fst p <? getWidth model)
  && (0 <=? snd p) && (snd p <? getHeight model).

(** The rasterization in the words of the specification: the pixels of the
    control polygon that lie in the bitmap rectangle. *)
Definition clippedPolygon (q : QuadraticBezier) : list point :=
  List.filter (insideBitmap (m_model q)) (polygonPixels (m_controlPoints q)).

(** The two jitters that [mutate] draws after the index, each by
    [randomRange (-64, 64)]: the first for the abscissa, the second for the
    ordinate. *)
Definition mutateJitter (g : Rng) : Z * Z :=
  (-64 + g 1%nat mod 129, -64 + g 2%nat mod 129).

(** ** Sample data *)

(** A generator whose first draw is 4. *)
Definition sampleRng : Rng :=
  fun n => match n with
           | O => 4
           | 1%nat => 7
           | _ => Z.of_nat n * 13
           end.

Definition sampleModel : Model := mkModel 4 3.

Definition sampleBezier : QuadraticBezier :=
  mkQuadraticBezier sampleModel [(0, 2); (3, 0); (0, 0); (3, 2)].

(** Generators for two mutations, and the shapes they lead to. *)
Definition mutateRng1 : Rng :=
  fun n => match n with
           | O => 2
           | 1%nat => 100
           | _ => 5
           end.

Definition mutateRng2 : Rng :=
  fun n => match n with
           | O => 7
           | 1%nat => 3
           | _ => 127
           end.

Definition sampleMutated1 : QuadraticBezier :=
  mkQuadraticBezier sampleModel [(0, 2); (3, 0); (3, 0); (3, 2)].

Definition sampleMutated2 : QuadraticBezier :=
  mkQuadraticBezier sampleModel [(0, 2); (3, 0); (3, 0); (0, 2)].

(** The 1 x 1 model: every shape built for it has its four control points
    on the only pixel. *)
Definition unitModel : Model := mkModel 1 1.

Definition unitBezier : QuadraticBezier :=
  mkQuadraticBezier unitModel [(0, 0); (0, 0); (0, 0); (0, 0)].

(** A black target with a white canvas. *)
Definition blackOnWhite : ModelImpl :=
  ModelImpl_new (Bitmap.new 1 1 (mkRgba 0 0 0 255)) (mkRgba 255 255 255 255).

Definition blackOnWhiteDrawn : ModelImpl :=
  snd (drawShape blackOnWhite unitBezier 128).

(** A fully transparent target with a fully transparent canvas. *)
Definition transparent : ModelImpl :=
  ModelImpl_new (Bitmap.new 1 1 (mkRgba 0 0 0 0)) (mkRgba 0 0 0 0).

(** A worker for the sample steps: it returns the first shape it constructs,
    scored by the full difference the canvas would have with it. *)
Definition sampleWorker (shapeTypes : ShapeTypes)
    (alpha shapeCount maxShapeMutations passes : Z)
    (target current buffer : Bitmap) (g : Rng) : @State QuadraticBezier :=
  let model := mkModel (bmWidth target) (bmHeight target) in
  let q := default (mkQuadraticBezier model [])
                   (run (QuadraticBezier.new model) g) in
  let lines := rasterize q in
  let color := core.computeColor target current lines alpha in
  mkState q (core.differenceFull target (core.drawLines buffer color lines))
          alpha.

Definition sampleThreadRng (i : nat) : Rng := fun n => Z.of_nat (i + n).


(** A 4 x 3 black target with a white canvas, the model of the sample
    shape. *)
Definition sampleImpl : ModelImpl :=
  ModelImpl_new (Bitmap.new 4 3 (mkRgba 0 0 0 255)) (mkRgba 255 255 255 255).

(** The black and white model, drawn on, reset to grey and drawn on again. *)
Definition sampleHistory : ModelImpl :=
  snd (drawShape (reset blackOnWhiteDrawn (mkRgba 128 128 128 255))
                 unitBezier 64).

(** ** Machine integers: facts *)

Lemma int32_small (z : Z) : - 2 ^ 31 <= z < 2 ^ 31 -> int32 z = z.
Proof.
  intros Hz. unfold int32.
  rewrite Z.mod_small; lia.
Qed.

Lemma int32_range (z : Z) : - 2 ^ 31 <= int32 z < 2 ^ 31.
Proof.
  unfold int32.
  pose proof (Z.mod_pos_bound (z + 2 ^ 31) (2 ^ 32) ltac:(lia)). lia.
Qed.

(** The upper bound [xBound - 1] that the source clamps to never exceeds
    [w - 1], whatever the width. *)
Lemma upper_bound_le (w : Z) : 0 < w -> sub32 (int32 w) 1 <= w - 1.
Proof.
  intros Hw. unfold sub32, int32.
  change (2 ^ 31) with 2147483648. change (2 ^ 32) with 4294967296.
  pose proof (Z.mod_pos_bound (w + 2147483648) 4294967296 ltac:(lia)) as Hb.
  pose proof (Z.mod_le (w + 2147483648) 4294967296 ltac:(lia) ltac:(lia)) as Hl.
  set (A := (w + 2147483648) mod 4294967296) in *.
  replace (A - 2147483648 - 1 + 2147483648) with (A - 1) by lia.
  destruct (Z.eq_dec A 0) as [HA | HA].
  - rewrite HA. change ((0 - 1) mod 4294967296) with 4294967295.
    assert (4294967296 <= w + 2147483648); [| lia].
    assert (Hd : (4294967296 | w + 2147483648)).
    { apply Z.mod_divide; [lia | exact HA]. }
    destruct Hd as [k Hk]. nia.
  - rewrite Z.mod_small; lia.
Qed.

Lemma clamp_closed (v w : Z) :
  0 < w -> 0 <= clamp v 0 (sub32 (int32 w) 1) <= w - 1.
Proof.
  intros Hw. pose proof (upper_bound_le w Hw). unfold clamp. lia.
Qed.

Lemma clamp_range (v lo hi : Z) : lo <= hi -> lo <= clamp v lo hi <= hi.
Proof. unfold clamp. lia. Qed.

(** ** The random generator: facts *)

Lemma randomRange_run (lo hi : Z) (g : Rng) :
  run (randomRange lo hi) g = Some (lo + g 0%nat mod (hi - lo + 1)).
Proof. reflexivity. Qed.

Lemma randomRange_closed (lo hi : Z) (g : Rng) (v : Z) :
  lo <= hi -> run (randomRange lo hi) g = Some v -> lo <= v <= hi.
Proof.
  intros Hle. rewrite randomRange_run. intros [= <-].
  pose proof (Z.mod_pos_bound (g 0%nat) (hi - lo + 1) ltac:(lia)). lia.
Qed.

(** Every value of the closed range can be drawn. *)
Lemma randomRange_any (lo hi v : Z) :
  lo <= v <= hi -> run (randomRange lo hi) (fun _ => v - lo) = Some v.
Proof.
  intros Hv. rewrite randomRange_run. f_equal.
  rewrite Z.mod_small; lia.
Qed.

(** ** The quadratic Bezier: construction and mutation *)

Lemma clamped_inBounds (model : Model) (p : point) :
  0 < getWidth model -> 0 < getHeight model ->
  clamped model p -> inBounds model p.
Proof.
  intros Hw Hh (vx & vy & ->). split; simpl; apply clamp_closed; assumption.
Qed.

Lemma pushPoints_spec (model : Model) (n : nat) (start : point) :
  forall (acc : list point) (g : Rng),
  exists pts g',
    QuadraticBezier.pushPoints n (int32 (getWidth model))
      (int32 (getHeight model)) start acc g = Some (acc ++ pts, g')
    /\ length pts = n /\ Forall (clamped model) pts.
Proof.
  induction n as [| n IH]; intros acc g.
  - exists [], g. rewrite app_nil_r. repeat split; constructor.
  - simpl. cbv beta iota zeta delta [bind randomRange].
    match goal with
    | |- context [QuadraticBezier.pushPoints n _ _ _ (acc ++ [?p]) ?g1] =>
      destruct (IH (acc ++ [p]) g1) as (pts & g' & Heq & Hlen & Hall);
      exists (p :: pts), g'
    end.
    rewrite Heq, <- app_assoc. simpl. repeat split.
    + now rewrite Hlen.
    + constructor; [| exact Hall]. eexists _, _. reflexivity.
Qed.

(** The constructor always returns, with four clamped control points. *)
Lemma new_spec (model : Model) (g : Rng) :
  exists q,
    run (QuadraticBezier.new model) g = Some q
    /\ m_model q = model
    /\ length (m_controlPoints q) = 4%nat
    /\ Forall (clamped model) (m_controlPoints q).
Proof.
  unfold run.
  cbv beta iota zeta delta [QuadraticBezier.new QuadraticBezier.startingPoint
                       bind randomRange ret].
  match goal with
  | |- context [QuadraticBezier.pushPoints 4 _ _ ?st [] ?g1] =>
    destruct (pushPoints_spec model 4 st [] g1)
      as (pts & g' & Heq & Hlen & Hall)
  end.
  rewrite Heq. simpl. eexists. repeat split; simpl; assumption.
Qed.

(** [mutate] on a shape with at least one and fewer than 2^31 control
    points returns, and rewrites the control point at [mutateIndex] only. *)
Lemma mutate_spec (q : QuadraticBezier) (g : Rng) :
  (0 < length (m_controlPoints q))%nat ->
  Z.of_nat (length (m_controlPoints q)) < 2 ^ 31 ->
  exists q' p jx jy,
    run (QuadraticBezier.mutate q) g = Some q'
    /\ (mutateIndex q g < length (m_controlPoints q))%nat
    /\ m_controlPoints q !! mutateIndex q g = Some p
    /\ -64 <= jx <= 64 /\ -64 <= jy <= 64
    /\ m_model q' = m_model q
    /\ m_controlPoints q'
       = <[mutateIndex q g := perturbed (m_model q) p jx jy]>
           (m_controlPoints q).
Proof.
  intros Hpos Hsmall.
  set (n := Z.of_nat (length (m_controlPoints q))) in *.
  assert (Hn : 0 < n) by lia.
  pose proof (Z.mod_pos_bound (g 0%nat) n Hn) as Hmod.
  assert (Hidx : (mutateIndex q g < length (m_controlPoints q))%nat).
  { unfold mutateIndex. fold n. lia. }
  destruct (lookup_lt_is_Some_2 _ _ Hidx) as [p0 Hp0].
  unfold run, QuadraticBezier.mutate. fold n.
  cbv beta iota zeta delta [bind randomRange ret].
  assert (Hst : size_t (n - 1) = n - 1).
  { unfold size_t. apply Z.mod_small. lia. }
  rewrite Hst.
  replace (n - 1 - 0 + 1) with n by lia.
  rewrite (int32_small (0 + g 0%nat mod n)) by lia.
  destruct (Z.ltb_spec (0 + g 0%nat mod n) 0) as [Hneg | _]; [lia |].
  replace (Z.to_nat (0 + g 0%nat mod n)) with (mutateIndex q g)
    by (unfold mutateIndex; fold n; f_equal; lia).
  unfold point in *. rewrite Hp0. simpl.
  eexists _, p0, (-64 + g 1%nat mod 129), (-64 + g 2%nat mod 129).
  split; [reflexivity |].
  split; [exact Hidx |]. split; [reflexivity |].
  pose proof (Z.mod_pos_bound (g 1%nat) 129 ltac:(lia)).
  pose proof (Z.mod_pos_bound (g 2%nat) 129 ltac:(lia)).
  split; [lia |]. split; [lia |]. split; reflexivity.
Qed.

Lemma clone_spec (q : QuadraticBezier) (g : Rng) :
  run (QuadraticBezier.clone q) g
  = Some (mkQuadraticBezier (m_model q) (m_controlPoints q)).
Proof.
  unfold run, QuadraticBezier.clone. unfold bind at 1.
  destruct (new_spec (m_model q) g) as (b & Hb & Hm & _).
  unfold run in Hb.
  destruct (QuadraticBezier.new (m_model q) g) as [[b' g'] |];
    [| discriminate].
  simpl in Hb. injection Hb as ->. simpl. now rewrite Hm.
Qed.

(** What holds of every shape the program can build. *)
Lemma reachable_inv (model : Model) (q : QuadraticBezier) :
  reachable model q ->
  m_model q = model
  /\ length (m_controlPoints q) = 4%nat
  /\ Forall (clamped model) (m_controlPoints q).
Proof.
  induction 1 as [g q Hnew | g q q' _ IH Hclone | g q q' _ IH Hmut].
  - destruct (new_spec model g) as (q1 & Hq1 & Hm & Hlen & Hall).
    rewrite Hq1 in Hnew. injection Hnew as <-. auto.
  - rewrite clone_spec in Hclone. injection Hclone as <-. exact IH.
  - destruct IH as (Hm & Hlen & Hall).
    destruct (mutate_spec q g)
      as (q1 & p & jx & jy & Hq1 & Hidx & Hp & _ & _ & Hm1 & Hcps).
    + lia.
    + rewrite Hlen. reflexivity.
    + rewrite Hq1 in Hmut. injection Hmut as <-.
      rewrite Hm1, Hcps, length_insert. repeat split; try assumption.
      apply Forall_insert; [exact Hall |].
      rewrite Hm. eexists _, _. reflexivity.
Qed.

Lemma rawLoop_flat (cps : list point) (data : list Z) :
  QuadraticBezier.rawLoop cps data
  = data ++ flat_map (fun p => [fst p; snd p]) cps.
Proof.
  revert data. induction cps as [| p cps IH]; intros data; simpl.
  - now rewrite app_nil_r.
  - rewrite IH, <- !app_assoc. reflexivity.
Qed.

Lemma getRawShapeData_length (q : QuadraticBezier) :
  length (QuadraticBezier.getRawShapeData q)
  = (2 * length (m_controlPoints q))%nat.
Proof.
  unfold QuadraticBezier.getRawShapeData. rewrite rawLoop_flat. simpl.
  induction (m_controlPoints q) as [| p cps IH]; simpl; [reflexivity |].
  rewrite IH. lia.
Qed.

Lemma reachable_sample : reachable sampleModel sampleBezier.
Proof. apply reachable_new with sampleRng. reflexivity. Defined.

Example new_sample :
  run (QuadraticBezier.new sampleModel) sampleRng = Some sampleBezier.
Proof. reflexivity. Qed.

Example rasterize_sample :
  map (fun l => (x1 l, y l)) (QuadraticBezier.rasterize sampleBezier)
  = [(0, 2); (1, 1); (2, 1); (3, 0);
     (3, 0); (2, 0); (1, 0); (0, 0);
     (0, 0); (1, 1); (2, 1); (3, 2);
     (3, 2)].
Proof. reflexivity. Qed.

(** ** The quadratic Bezier: the properties of the specification *)

(** C3, as stated, fails: a constructed shape serialises to eight integers,
    not to six. *)
Lemma getRawShapeData_six_counterexample :
  reachable sampleModel sampleBezier
  /\ QuadraticBezier.getRawShapeData sampleBezier = [0; 2; 3; 0; 0; 0; 3; 2]
  /\ ~ (exists cx cy x1 y1 x2 y2 : Z,
          QuadraticBezier.getRawShapeData sampleBezier
          = [cx; cy; x1; y1; x2; y2]).
Proof.
  split; [exact reachable_sample |]. split; [reflexivity |].
  intros (cx & cy & a1 & b1 & a2 & b2 & Heq). discriminate Heq.
Qed.

(** C3, amended: for every quadratic Bezier the program can build,
    [getRawShapeData] returns exactly the eight signed 32-bit integers
    x0, y0, x1, y1, x2, y2, x3, y3: the coordinates of the four stored
    control points, in storage order. *)
Theorem getRawShapeData_layout (model : Model) (q : QuadraticBezier) :
  reachable model q ->
  exists p0 p1 p2 p3 : point,
    m_controlPoints q = [p0; p1; p2; p3]
    /\ QuadraticBezier.getRawShapeData q
       = [fst p0; snd p0; fst p1; snd p1; fst p2; snd p2; fst p3; snd p3]
    /\ Forall (fun v => - 2 ^ 31 <= v < 2 ^ 31)
              (QuadraticBezier.getRawShapeData q).
Proof.
  intros Hq. destruct (reachable_inv model q Hq) as (_ & Hlen & Hall).
  unfold QuadraticBezier.getRawShapeData. rewrite rawLoop_flat. simpl.
  destruct (m_controlPoints q) as [| p0 [| p1 [| p2 [| p3 [| p4 rest]]]]];
    try discriminate Hlen.
  exists p0, p1, p2, p3. split; [reflexivity |]. split; [reflexivity |].
  assert (Hc : forall p, clamped model p ->
               (- 2 ^ 31 <= fst p < 2 ^ 31) /\ (- 2 ^ 31 <= snd p < 2 ^ 31)).
  { intros p (vx & vy & ->). simpl. unfold clamp, sub32.
    pose proof (int32_range (int32 (getWidth model) - 1)).
    pose proof (int32_range (int32 (getHeight model) - 1)). lia. }
  simpl.
  repeat match goal with
         | H : Forall _ (_ :: _) |- _ =>
           apply Forall_cons in H; destruct H as [?%Hc H]
         end.
  repeat constructor; tauto.
Qed.

(** The layout on the sample shape. *)
Lemma getRawShapeData_layout_witness :
  reachable sampleModel sampleBezier
  /\ exists p0 p1 p2 p3 : point,
       m_controlPoints sampleBezier = [p0; p1; p2; p3]
       /\ QuadraticBezier.getRawShapeData sampleBezier
          = [fst p0; snd p0; fst p1; snd p1; fst p2; snd p2; fst p3; snd p3]
       /\ Forall (fun v => - 2 ^ 31 <= v < 2 ^ 31)
                 (QuadraticBezier.getRawShapeData sampleBezier).
Proof.
  split; [exact reachable_sample |].
  apply (getRawShapeData_layout sampleModel sampleBezier).
  exact reachable_sample.
Defined.

(** The starting point of the constructor, on dimensions that fit 32 signed
    bits: its abscissa lies in the closed range [0 .. w] and its ordinate in
    [0 .. h - 1]. *)
Lemma startingPoint_range (model : Model) (g : Rng) :
  0 < getWidth model < 2 ^ 31 -> 0 < getHeight model < 2 ^ 31 ->
  exists sx sy,
    run (QuadraticBezier.startingPoint (int32 (getWidth model))
                                       (int32 (getHeight model))) g
    = Some (sx, sy)
    /\ 0 <= sx <= getWidth model /\ 0 <= sy <= getHeight model - 1.
Proof.
  intros Hw Hh. rewrite !int32_small by lia.
  unfold run, QuadraticBezier.startingPoint.
  cbv beta iota zeta delta [bind randomRange ret sub32]. simpl.
  rewrite int32_small by lia.
  eexists _, _. split; [reflexivity |].
  pose proof (Z.mod_pos_bound (g 0%nat) (getWidth model - 0 + 1) ltac:(lia)).
  pose proof (Z.mod_pos_bound (g 1%nat) (getHeight model - 1 - 0 + 1)
                              ltac:(lia)).
  lia.
Qed.

(** Whatever the dimensions, some generator puts the starting point on the
    column [w], one past the last column of the bitmap. *)
Lemma startingPoint_outside (model : Model) :
  0 < getWidth model < 2 ^ 31 ->
  exists sy,
    run (QuadraticBezier.startingPoint (int32 (getWidth model))
                                       (int32 (getHeight model)))
        (fun _ => getWidth model)
    = Some (getWidth model, sy).
Proof.
  intros Hw. rewrite (int32_small (getWidth model)) by lia.
  unfold run, QuadraticBezier.startingPoint.
  cbv beta iota zeta delta [bind randomRange ret]. simpl.
  eexists. do 2 f_equal.
  rewrite Z.mod_small; lia.
Qed.

(** C6: on the 4 x 3 model, with a generator whose first draw is 4, the
    starting point of the constructor is (4, 1): its abscissa equals the
    width and so lies outside the half-open range [0, 4). *)
Theorem startingPoint_reaches_width :
  run (QuadraticBezier.startingPoint (int32 (getWidth sampleModel))
                                     (int32 (getHeight sampleModel)))
      sampleRng
  = Some (4, 1)
  /\ ~ (0 <= 4 < getWidth sampleModel).
Proof.
  split; [reflexivity |]. simpl. lia.
Qed.

(** C7: over a model of positive width and height, every control point of a
    quadratic Bezier that was constructed and then cloned or mutated any
    number of times lies in [0, w-1] x [0, h-1]. *)
Theorem clamp_closure (model : Model) (q : QuadraticBezier) :
  0 < getWidth model -> 0 < getHeight model ->
  reachable model q ->
  Forall (inBounds model) (m_controlPoints q).
Proof.
  intros Hw Hh Hq.
  destruct (reachable_inv model q Hq) as (_ & _ & Hall).
  eapply Forall_impl; [exact Hall |].
  intros p Hp. now apply clamped_inBounds.
Qed.

Lemma reachable_mutated1 : reachable sampleModel sampleMutated1.
Proof.
  apply reachable_mutate with mutateRng1 sampleBezier;
    [exact reachable_sample | reflexivity].
Defined.

Lemma reachable_mutated2 : reachable sampleModel sampleMutated2.
Proof.
  apply reachable_mutate with mutateRng2 sampleMutated1;
    [exact reachable_mutated1 | reflexivity].
Defined.

(** The closure on a shape constructed and mutated twice. *)
Lemma clamp_closure_witness :
  0 < getWidth sampleModel /\ 0 < getHeight sampleModel
  /\ reachable sampleModel sampleMutated2
  /\ Forall (inBounds sampleModel) (m_controlPoints sampleMutated2).
Proof.
  split; [simpl; lia |]. split; [simpl; lia |].
  split; [exact reachable_mutated2 |].
  apply (clamp_closure sampleModel sampleMutated2);
    [simpl; lia | simpl; lia | exact reachable_mutated2].
Defined.

(** [mutate] on a shape with at least one and fewer than 2^31 control
    points, in full: the control point at [mutateIndex] is rewritten with
    itself moved by the two jitters drawn next and clamped. *)
Lemma mutate_exact (q : QuadraticBezier) (g : Rng) (p : point) :
  Z.of_nat (length (m_controlPoints q)) < 2 ^ 31 ->
  m_controlPoints q !! mutateIndex q g = Some p ->
  run (QuadraticBezier.mutate q) g
  = Some (mkQuadraticBezier (m_model q)
            (<[mutateIndex q g :=
                 perturbed (m_model q) p (fst (mutateJitter g))
                           (snd (mutateJitter g))]> (m_controlPoints q))).
Proof.
  intros Hsmall Hp.
  pose proof (lookup_lt_Some _ _ _ Hp) as Hidx.
  set (n := Z.of_nat (length (m_controlPoints q))) in *.
  assert (Hn : 0 < n) by lia.
  pose proof (Z.mod_pos_bound (g 0%nat) n Hn) as Hmod.
  unfold run, QuadraticBezier.mutate. fold n.
  cbv beta iota zeta delta [bind randomRange ret].
  assert (Hst : size_t (n - 1) = n - 1).
  { unfold size_t. apply Z.mod_small. lia. }
  rewrite Hst.
  replace (n - 1 - 0 + 1) with n by lia.
  rewrite (int32_small (0 + g 0%nat mod n)) by lia.
  destruct (Z.ltb_spec (0 + g 0%nat mod n) 0) as [Hneg | _]; [lia |].
  replace (Z.to_nat (0 + g 0%nat mod n)) with (mutateIndex q g)
    by (unfold mutateIndex; fold n; f_equal; lia).
  unfold point in *. rewrite Hp. reflexivity.
Qed.

Lemma mutateJitter_draws (g : Rng) :
  run (randomRange (-64) 64) (fun n => g (S n)) = Some (fst (mutateJitter g))
  /\ run (randomRange (-64) 64) (fun n => g (S (S n)))
     = Some (snd (mutateJitter g))
  /\ -64 <= fst (mutateJitter g) <= 64
  /\ -64 <= snd (mutateJitter g) <= 64.
Proof.
  pose proof (Z.mod_pos_bound (g 1%nat) 129 ltac:(lia)).
  pose proof (Z.mod_pos_bound (g 2%nat) 129 ltac:(lia)).
  unfold mutateJitter. simpl. repeat split; lia.
Qed.

(** A jitter that leaves the point inside the bitmap moves it by exactly
    that much. *)
Lemma perturbed_inside (model : Model) (p : point) (jx jy : Z) :
  (0 < getWidth model < 2 ^ 31 ->
   0 <= fst p + jx <= getWidth model - 1 ->
   fst (perturbed model p jx jy) = fst p + jx)
  /\ (0 < getHeight model < 2 ^ 31 ->
      0 <= snd p + jy <= getHeight model - 1 ->
      snd (perturbed model p jx jy) = snd p + jy).
Proof.
  unfold perturbed, add32, sub32. simpl. split; intros Hd Hin.
  - rewrite (int32_small (getWidth model)) by lia.
    rewrite !int32_small by lia. unfold clamp. lia.
  - rewrite (int32_small (getHeight model)) by lia.
    rewrite !int32_small by lia. unfold clamp. lia.
Qed.

(** C8: [mutate] on a quadratic Bezier the program can build returns the
    shape in which exactly the control point at one index [i] has been
    replaced, every other control point being kept.  [i] is the first draw of
    the generator, on the closed range [0 .. 3] (the raw draw modulo 4, so
    that each of the four indices stands for one residue class).  The new
    control point is the old one moved by the two jitters that the next two
    draws give on [-64 .. 64], then clamped; a jitter that leaves the
    coordinate inside the bitmap moves it by exactly that much.  The type tag
    and the number of serialised parameters are unchanged. *)
Theorem mutate_one_point (model : Model) (q : QuadraticBezier) (g : Rng) :
  reachable model q ->
  exists (q' : QuadraticBezier) (i : nat) (p : point) (jx jy : Z),
    run (QuadraticBezier.mutate q) g = Some q'
    /\ run (randomRange 0 3) g = Some (Z.of_nat i)
    /\ Z.of_nat i = g 0%nat mod 4
    /\ m_controlPoints q !! i = Some p
    /\ run (randomRange (-64) 64) (fun n => g (S n)) = Some jx
    /\ run (randomRange (-64) 64) (fun n => g (S (S n))) = Some jy
    /\ -64 <= jx <= 64 /\ -64 <= jy <= 64
    /\ q' = mkQuadraticBezier model
              (<[i := perturbed model p jx jy]> (m_controlPoints q))
    /\ m_controlPoints q' !! i = Some (perturbed model p jx jy)
    /\ (0 < getWidth model < 2 ^ 31 ->
        0 <= fst p + jx <= getWidth model - 1 ->
        fst (perturbed model p jx jy) = fst p + jx)
    /\ (0 < getHeight model < 2 ^ 31 ->
        0 <= snd p + jy <= getHeight model - 1 ->
        snd (perturbed model p jx jy) = snd p + jy)
    /\ (forall j : nat, j <> i ->
          m_controlPoints q' !! j = m_controlPoints q !! j)
    /\ QuadraticBezier.getType q' = QuadraticBezier.getType q
    /\ length (QuadraticBezier.getRawShapeData q')
       = length (QuadraticBezier.getRawShapeData q).
Proof.
  intros Hq. destruct (reachable_inv model q Hq) as (Hm & Hlen & _).
  assert (Hidx : (mutateIndex q g < length (m_controlPoints q))%nat).
  { unfold mutateIndex. rewrite Hlen.
    pose proof (Z.mod_pos_bound (g 0%nat) 4 ltac:(lia)).
    change (Z.of_nat 4) with 4. lia. }
  destruct (lookup_lt_is_Some_2 _ _ Hidx) as [p Hp].
  assert (Hi : Z.of_nat (mutateIndex q g) = g 0%nat mod 4).
  { unfold mutateIndex. rewrite Hlen.
    pose proof (Z.mod_pos_bound (g 0%nat) 4 ltac:(lia)).
    change (Z.of_nat 4) with 4. lia. }
  destruct (mutateJitter_draws g) as (Hdx & Hdy & Hjx & Hjy).
  destruct (perturbed_inside model p (fst (mutateJitter g))
              (snd (mutateJitter g))) as (Hmx & Hmy).
  pose proof (mutate_exact q g p ltac:(rewrite Hlen; reflexivity) Hp) as Hrun.
  rewrite Hm in Hrun.
  eexists _, (mutateIndex q g), p, (fst (mutateJitter g)),
          (snd (mutateJitter g)).
  split; [exact Hrun |].
  split; [rewrite randomRange_run, Hi; reflexivity |].
  split; [exact Hi |]. split; [exact Hp |].
  split; [exact Hdx |]. split; [exact Hdy |].
  split; [exact Hjx |]. split; [exact Hjy |].
  split; [reflexivity |].
  split; [simpl; now apply list_lookup_insert_eq |].
  split; [exact Hmx |]. split; [exact Hmy |].
  split; [intros j Hj; simpl; now apply list_lookup_insert_ne |].
  split; [reflexivity |].
  rewrite !getRawShapeData_length. simpl. now rewrite length_insert.
Qed.

(** One mutation of the sample shape: the control point (0, 0) at index 2
    is moved by the jitters 36 and -59 and clamped to (3, 0). *)
Example mutate_sample :
  run (QuadraticBezier.mutate sampleBezier) mutateRng1 = Some sampleMutated1
  /\ mutateJitter mutateRng1 = (36, -59)
  /\ perturbed sampleModel (0, 0) 36 (-59) = (3, 0).
Proof. repeat split. Qed.

(** One mutation of the sample shape. *)
Lemma mutate_one_point_witness :
  reachable sampleModel sampleBezier
  /\ exists (q' : QuadraticBezier) (i : nat) (p : point) (jx jy : Z),
       run (QuadraticBezier.mutate sampleBezier) mutateRng1 = Some q'
       /\ run (randomRange 0 3) mutateRng1 = Some (Z.of_nat i)
       /\ Z.of_nat i = mutateRng1 0%nat mod 4
       /\ m_controlPoints sampleBezier !! i = Some p
       /\ run (randomRange (-64) 64) (fun n => mutateRng1 (S n)) = Some jx
       /\ run (randomRange (-64) 64) (fun n => mutateRng1 (S (S n)))
          = Some jy
       /\ -64 <= jx <= 64 /\ -64 <= jy <= 64
       /\ q' = mkQuadraticBezier sampleModel
                 (<[i := perturbed sampleModel p jx jy]>
                    (m_controlPoints sampleBezier))
       /\ m_controlPoints q' !! i = Some (perturbed sampleModel p jx jy)
       /\ (0 < getWidth sampleModel < 2 ^ 31 ->
           0 <= fst p + jx <= getWidth sampleModel - 1 ->
           fst (perturbed sampleModel p jx jy) = fst p + jx)
       /\ (0 < getHeight sampleModel < 2 ^ 31 ->
           0 <= snd p + jy <= getHeight sampleModel - 1 ->
           snd (perturbed sampleModel p jx jy) = snd p + jy)
       /\ (forall j : nat, j <> i ->
             m_controlPoints q' !! j = m_controlPoints sampleBezier !! j)
       /\ QuadraticBezier.getType q' = QuadraticBezier.getType sampleBezier
       /\ length (QuadraticBezier.getRawShapeData q')
          = length (QuadraticBezier.getRawShapeData sampleBezier).
Proof.
  split; [exact reachable_sample |].
  apply (mutate_one_point sampleModel sampleBezier mutateRng1).
  exact reachable_sample.
Defined.

(** Each of the four control points can be the one [mutate] rewrites. *)
Lemma mutate_any_index (model : Model) (q : QuadraticBezier) (i : nat) :
  reachable model q -> (i < 4)%nat ->
  exists g, mutateIndex q g = i.
Proof.
  intros Hq Hi. destruct (reachable_inv model q Hq) as (_ & Hlen & _).
  exists (fun _ => Z.of_nat i). unfold mutateIndex. rewrite Hlen.
  rewrite Z.mod_small by lia. lia.
Qed.

(** C9: the fragment that [getSvgShapeData] returns has an empty path: for
    the shape with control points (0,2), (3,0), (0,0), (3,2) it is a [path]
    element whose [d] attribute is empty, where the specification has
    [M 3 0 Q 0 2 0 0] between the quotes; no coordinate of the shape is
    written, whatever the shape and the style hook. *)
Theorem getSvgShapeData_empty_path :
  QuadraticBezier.getSvgShapeData "SVG_STYLE_HOOK" sampleBezier
  = ("<path d=" ++ QuadraticBezier.dquote ++ QuadraticBezier.dquote ++ " SVG_STYLE_HOOK />")%string
  /\ QuadraticBezier.getSvgShapeData "SVG_STYLE_HOOK" sampleBezier
     <> ("<path d=" ++ QuadraticBezier.dquote ++ "M 3 0 Q 0 2 0 0" ++ QuadraticBezier.dquote
         ++ " SVG_STYLE_HOOK />")%string
  /\ forall (hook : string) (q q' : QuadraticBezier),
       QuadraticBezier.getSvgShapeData hook q
       = QuadraticBezier.getSvgShapeData hook q'.
Proof.
  split; [reflexivity |]. split; [| reflexivity].
  vm_compute. discriminate.
Qed.

(** ** The model: selecting the best state *)

Section MinElement.

Context {A : Type} (key : A -> R).

Let comp (a b : A) : bool := bool_decide (key a < key b)%R.

(** The loop of [std::min_element] keeps the first smallest element of what
    it has visited. *)
Lemma min_element_from_spec (l : list A) :
  forall (visited : list A) (smallest : nat) (v : A),
    visited !! smallest = Some v ->
    (forall j x, visited !! j = Some x -> (key v <= key x)%R) ->
    (forall j x, (j < smallest)%nat -> visited !! j = Some x ->
                 (key v < key x)%R) ->
    exists w,
      (visited ++ l) !! min_element_from comp l (length visited) smallest v
      = Some w
      /\ (forall j x, (visited ++ l) !! j = Some x -> (key w <= key x)%R)
      /\ (forall j x,
            (j < min_element_from comp l (length visited) smallest v)%nat ->
            (visited ++ l) !! j = Some x -> (key w < key x)%R).
Proof.
  induction l as [| a l IH]; intros visited smallest v Hv Hmin Hfirst.
  - simpl. rewrite app_nil_r. exists v. auto.
  - simpl.
    replace (visited ++ a :: l) with ((visited ++ [a]) ++ l)
      by (rewrite <- app_assoc; reflexivity).
    replace (S (length visited)) with (length (visited ++ [a]))
      by (rewrite length_app; simpl; lia).
    destruct (comp a v) eqn:E; unfold comp in E;
      [apply bool_decide_eq_true in E as Hlt
      | apply bool_decide_eq_false in E as Hge].
    + apply IH.
      * rewrite lookup_app_r by lia.
        now rewrite Nat.sub_diag.
      * intros j x Hj. apply lookup_app_Some in Hj as [Hj | [_ Hj]].
        -- specialize (Hmin j x Hj). lra.
        -- apply list_lookup_singleton_Some in Hj as [_ <-]. lra.
      * intros j x Hlt' Hj. rewrite lookup_app_l in Hj by exact Hlt'.
        specialize (Hmin j x Hj). lra.
    + apply IH.
      * apply lookup_app_l_Some. exact Hv.
      * intros j x Hj. apply lookup_app_Some in Hj as [Hj | [_ Hj]].
        -- exact (Hmin j x Hj).
        -- apply list_lookup_singleton_Some in Hj as [_ <-]. lra.
      * intros j x Hlt' Hj.
        pose proof (lookup_lt_Some _ _ _ Hv) as Hs.
        rewrite lookup_app_l in Hj by lia.
        exact (Hfirst j x Hlt' Hj).
Qed.

(** On a range that is not empty, [std::min_element] points at an element
    that is not above any other and is strictly below every earlier one. *)
Lemma min_element_spec (l : list A) :
  l <> [] ->
  exists w,
    l !! min_element comp l = Some w
    /\ (forall j x, l !! j = Some x -> (key w <= key x)%R)
    /\ (forall j x, (j < min_element comp l)%nat -> l !! j = Some x ->
                    (key w < key x)%R).
Proof.
  destruct l as [| a l]; [congruence | intros _].
  apply (min_element_from_spec l [a] 0%nat a).
  - reflexivity.
  - intros j x Hj. apply list_lookup_singleton_Some in Hj as [_ <-]. lra.
  - intros j x Hj. lia.
Qed.

End MinElement.

(** ** The model: the score *)

Local Open Scope R_scope.

Lemma score_square (x : R) : 0 <= x -> (sqrt x / 255 * 255) ^ 2 = x.
Proof.
  intros Hx. replace (sqrt x / 255 * 255) with (sqrt x) by field.
  now apply pow2_sqrt.
Qed.


Lemma differenceFull_nonneg (target current : Bitmap) :
  0 <= core.differenceFull target current.
Proof.
  unfold core.differenceFull.
  apply Rmult_le_pos; [apply sqrt_pos |].
  left. apply Rinv_0_lt_compat. lra.
Qed.

Local Close Scope R_scope.

(** ** The model: the score over runs that list no pixel twice *)

Lemma sum_app (l1 l2 : list Z) : core.sum (l1 ++ l2) = core.sum l1 + core.sum l2.
Proof.
  unfold core.sum. induction l1 as [| a l1 IH]; simpl; [reflexivity |].
  rewrite IH. lia.
Qed.

Lemma sum_Permutation (l1 l2 : list Z) :
  l1 ≡ₚ l2 -> core.sum l1 = core.sum l2.
Proof.
  unfold core.sum. induction 1; simpl; lia.
Qed.

Lemma sum_map_sub {A : Type} (f g : A -> Z) (l : list A) :
  core.sum (map (fun p => f p - g p) l)
  = core.sum (map f l) - core.sum (map g l).
Proof.
  unfold core.sum. induction l as [| a l IH]; simpl; lia.
Qed.

Lemma sum_map_zero {A : Type} (d : A -> Z) (l : list A) :
  (forall p, p ∈ l -> d p = 0) -> core.sum (map d l) = 0.
Proof.
  unfold core.sum. induction l as [| a l IH]; intros Hz; simpl;
    [reflexivity |].
  rewrite (Hz a) by apply list_elem_of_here.
  rewrite IH; [reflexivity |].
  intros p Hp. apply Hz. now apply list_elem_of_further.
Qed.

(** A sum over a list without repetition only depends on where the summand
    does not vanish. *)
Lemma sum_support {A : Type} (d : A -> Z) (K L : list A) :
  NoDup K -> NoDup L -> (forall p, p ∈ K -> p ∈ L) ->
  (forall p, p ∈ L -> p ∉ K -> d p = 0) ->
  core.sum (map d L) = core.sum (map d K).
Proof.
  intros HK HL Hsub Hzero.
  destruct (submseteq_Permutation K L (NoDup_submseteq K L HK Hsub))
    as [rest Hperm].
  rewrite (sum_Permutation (map d L) (map d (K ++ rest)))
    by (apply fmap_Permutation; exact Hperm).
  rewrite map_app, sum_app.
  rewrite (sum_map_zero d rest); [lia |].
  intros p Hp. rewrite Hperm in HL.
  apply NoDup_app in HL as (_ & Hdisj & _).
  apply Hzero.
  - rewrite Hperm. apply elem_of_app. now right.
  - intros HpK. exact (Hdisj p HpK Hp).
Qed.

Lemma NoDup_flat_map {A B : Type} (f : A -> list B) (l : list A) :
  NoDup l -> (forall a, NoDup (f a)) ->
  (forall a1 a2 b, b ∈ f a1 -> b ∈ f a2 -> a1 = a2) ->
  NoDup (flat_map f l).
Proof.
  intros Hl Hf Hinj. induction Hl as [| a l Hnotin Hl IH]; simpl.
  - constructor.
  - apply NoDup_app. split; [apply Hf |]. split; [| exact IH].
    intros b Hb Hb'. apply list_elem_of_In, in_flat_map in Hb'
      as (a' & Ha' & Hb').
    apply list_elem_of_In in Ha', Hb'.
    rewrite (Hinj a a' b Hb Hb') in Hnotin. contradiction.
Qed.

Lemma allPixels_NoDup (bm : Bitmap) : NoDup (core.allPixels bm).
Proof.
  unfold core.allPixels. apply NoDup_flat_map.
  - apply NoDup_seqZ.
  - intros row. apply NoDup_fmap_2; [| apply NoDup_seqZ].
    intros a b [= ->]. reflexivity.
  - intros r1 r2 [px py] H1 H2.
    apply list_elem_of_fmap in H1 as (a1 & [= -> ->] & _).
    apply list_elem_of_fmap in H2 as (a2 & [= _ ->] & _). reflexivity.
Qed.

(** Writing a pixel leaves the others as they are. *)
Lemma getPixel_setPixel_ne (bm : Bitmap) (px py qx qy : Z) (c : rgba) :
  (px, py) <> (qx, qy) ->
  Bitmap.getPixel (Bitmap.setPixel bm px py c) qx qy
  = Bitmap.getPixel bm qx qy.
Proof.
  intros Hne. unfold Bitmap.setPixel.
  destruct (Bitmap.index bm px py) as [i |] eqn:Hi; [| reflexivity].
  unfold Bitmap.getPixel, Bitmap.index in *. simpl.
  destruct ((0 <=? qx) && (qx <? bmWidth bm) && (0 <=? qy)
            && (qy <? bmHeight bm)) eqn:Hq; [| reflexivity].
  destruct ((0 <=? px) && (px <? bmWidth bm) && (0 <=? py)
            && (py <? bmHeight bm)) eqn:Hp; [| discriminate].
  injection Hi as <-.
  rewrite list_lookup_insert_ne; [reflexivity |].
  intros Heq. apply Hne.
  apply andb_prop in Hq as [Hq Hq4]. apply andb_prop in Hq as [Hq Hq3].
  apply andb_prop in Hq as [Hq1 Hq2].
  apply andb_prop in Hp as [Hp Hp4]. apply andb_prop in Hp as [Hp Hp3].
  apply andb_prop in Hp as [Hp1 Hp2].
  apply Z.leb_le in Hp1, Hp3, Hq1, Hq3. apply Z.ltb_lt in Hp2, Hp4, Hq2, Hq4.
  assert (0 <= py * bmWidth bm) by nia.
  assert (0 <= qy * bmWidth bm) by nia.
  assert (py * bmWidth bm + px = qy * bmWidth bm + qx) by lia.
  assert (py = qy) by nia. f_equal; nia.
Qed.

(** Blitting leaves the pixels outside the runs as they are. *)
Lemma drawLines_frame (color : rgba) (lines : list Scanline) (image : Bitmap)
    (p : point) :
  p ∉ core.pixelsOf lines ->
  Bitmap.getPixel (core.drawLines image color lines) (fst p) (snd p)
  = Bitmap.getPixel image (fst p) (snd p).
Proof.
  unfold core.drawLines. generalize (core.pixelsOf lines) as ps.
  intros ps. revert image.
  induction ps as [| q ps IH]; intros image Hnotin; simpl; [reflexivity |].
  apply not_elem_of_cons in Hnotin as [Hne Hnotin].
  rewrite IH by exact Hnotin.
  apply getPixel_setPixel_ne.
  intros Heq. apply Hne. destruct p, q. simpl in Heq. congruence.
Qed.

(** The squared error of the whole canvas after a blit over runs that stay
    inside the target and list no pixel twice: the squared error before, and
    the change over the runs. *)
Lemma drawLines_total (target image : Bitmap) (color : rgba)
    (lines : list Scanline) :
  NoDup (core.pixelsOf lines) ->
  (forall p, p ∈ core.pixelsOf lines -> p ∈ core.allPixels target) ->
  core.sum (map (core.sqDiffAt target (core.drawLines image color lines))
                (core.allPixels target))
  = core.sum (map (core.sqDiffAt target image) (core.allPixels target))
    + core.partialDelta target image (core.drawLines image color lines) lines.
Proof.
  intros Hnodup Hin. unfold core.partialDelta.
  rewrite <- (sum_support _ (core.pixelsOf lines) (core.allPixels target)
                Hnodup (allPixels_NoDup target) Hin).
  - rewrite sum_map_sub. lia.
  - intros p _ Hnotin. unfold core.sqDiffAt.
    rewrite (drawLines_frame color lines image p Hnotin). lia.
Qed.

Lemma sum_squares_nonneg (target other : Bitmap) (l : list point) :
  0 <= core.sum (map (core.sqDiffAt target other) l).
Proof.
  unfold core.sum. induction l as [| p l IH]; simpl; [lia |].
  unfold core.sqDiffAt at 1, core.sqDiff. nia.
Qed.

(** [differencePartial], started from the full difference, returns the full
    difference after the blit when the runs stay inside the target and list
    no pixel twice. *)
Lemma differencePartial_round_trip (target image : Bitmap) (color : rgba)
    (lines : list Scanline) :
  0 < core.rgbaCount target ->
  NoDup (core.pixelsOf lines) ->
  (forall p, p ∈ core.pixelsOf lines -> p ∈ core.allPixels target) ->
  core.differencePartial target image (core.drawLines image color lines)
    (core.differenceFull target image) lines
  = core.differenceFull target (core.drawLines image color lines).
Proof.
  intros Hcount Hnodup Hin.
  unfold core.differencePartial, core.differenceFull.
  rewrite (drawLines_total target image color lines Hnodup Hin).
  pose proof (sum_squares_nonneg target image (core.allPixels target)) as H0.
  pose proof (sum_squares_nonneg target (core.drawLines image color lines)
                (core.allPixels target)) as H1.
  rewrite (drawLines_total target image color lines Hnodup Hin) in H1.
  set (total := core.sum (map (core.sqDiffAt target image)
                              (core.allPixels target))) in *.
  set (delta := core.partialDelta target image
                  (core.drawLines image color lines) lines) in *.
  apply IZR_lt in Hcount. apply IZR_le in H0, H1.
  rewrite plus_IZR in H1 |- *.
  set (count := IZR (core.rgbaCount target)) in *.
  rewrite score_square.
  - replace (IZR total / count * count)%R with (IZR total) by (field; lra).
    rewrite Rmax_right by lra. reflexivity.
  - apply Rmult_le_pos; [lra |]. left. apply Rinv_0_lt_compat. lra.
Qed.

(** ** The model: one step *)

Section Step.

Context {S : Type} `{Shape S}.

Variable bestHillClimbState :
  ShapeTypes -> Z -> Z -> Z -> Z -> Bitmap -> Bitmap -> Bitmap -> Rng
  -> @State S.
Variable threadRng : nat -> Rng.
Variable hardware_concurrency : Z.
Variable shapeTypes : ShapeTypes.
Variables alpha shapeCount maxShapeMutations passes : Z.

Local Abbreviation states m :=
  (getHillClimbState bestHillClimbState threadRng hardware_concurrency
     shapeTypes alpha shapeCount maxShapeMutations passes m).

Local Abbreviation step' m :=
  (step bestHillClimbState threadRng hardware_concurrency
     shapeTypes alpha shapeCount maxShapeMutations passes m).

Lemma launch_length (n : nat) :
  forall (i : nat) (m : ModelImpl) (futures : list State),
    length (launch bestHillClimbState threadRng n i shapeTypes alpha
                   shapeCount maxShapeMutations passes m futures)
    = (length futures + n)%nat.
Proof.
  induction n as [| n IH]; intros i m futures; simpl.
  - lia.
  - rewrite IH, length_app. simpl. lia.
Qed.

Lemma collect_futures (futures : list (@State S)) :
  forall acc : list State,
    foldl (fun states f => states ++ [f]) acc futures = acc ++ futures.
Proof.
  induction futures as [| f futures IH]; intros acc; simpl.
  - now rewrite app_nil_r.
  - rewrite IH, <- app_assoc. reflexivity.
Qed.

Lemma getHillClimbState_length (m : ModelImpl) :
  length (states m) = Z.to_nat (Z.max 1 hardware_concurrency).
Proof.
  unfold getHillClimbState. cbv zeta.
  rewrite collect_futures, app_nil_l, launch_length. reflexivity.
Qed.

Lemma states_nonempty (m : ModelImpl) : states m <> [].
Proof.
  intros Heq. pose proof (getHillClimbState_length m) as Hlen.
  rewrite Heq in Hlen. simpl in Hlen. lia.
Qed.

(** Every collected state is what some worker returned. *)
Lemma launch_elem (st : State) (n : nat) :
  forall (i : nat) (m : ModelImpl) (futures : list State),
    st ∈ launch bestHillClimbState threadRng n i shapeTypes alpha
                shapeCount maxShapeMutations passes m futures ->
    st ∈ futures
    \/ exists k : nat,
         st = bestHillClimbState shapeTypes alpha shapeCount
                maxShapeMutations passes (m_target m) (m_current m)
                (m_current m) (threadRng k).
Proof.
  induction n as [| n IH]; intros i m futures Hin; simpl in Hin.
  - left. exact Hin.
  - apply IH in Hin as [Hin | Hk]; [| right; exact Hk].
    apply elem_of_app in Hin as [Hin | Hin]; [left; exact Hin |].
    apply list_elem_of_singleton in Hin. right. exists i. exact Hin.
Qed.

Lemma getHillClimbState_elem (m : ModelImpl) (st : State) :
  st ∈ states m ->
  exists k : nat,
    st = bestHillClimbState shapeTypes alpha shapeCount maxShapeMutations
           passes (m_target m) (m_current m) (m_current m) (threadRng k).
Proof.
  unfold getHillClimbState. cbv zeta.
  rewrite collect_futures, app_nil_l. intros Hin.
  apply launch_elem in Hin as [Hin | Hk]; [inversion Hin | exact Hk].
Qed.

(** A step draws the shape of the state that [std::min_element] points at. *)
Lemma step_unfold (m : ModelImpl) :
  exists st : State,
    states m !! min_element scoreLess (states m) = Some st
    /\ step' m = Some ([fst (drawShape m (m_shape st) alpha)],
                       snd (drawShape m (m_shape st) alpha)).
Proof.
  destruct (min_element_spec m_score (states m) (states_nonempty m))
    as (st & Hst & _).
  exists st. split; [exact Hst |].
  unfold step. cbv zeta.
  unfold scoreLess in Hst |- *. rewrite Hst.
  destruct (drawShape m (m_shape st) alpha) as [result m']. reflexivity.
Qed.

(** C10: a step collects [max 1 hardware_concurrency] worker states, at
    least one; [std::min_element] therefore returns a position inside the
    range, and the step returns a vector of exactly one result. *)
Theorem step_one_result (m : ModelImpl) :
  length (states m) = Z.to_nat (Z.max 1 hardware_concurrency)
  /\ (1 <= length (states m))%nat
  /\ (min_element scoreLess (states m) < length (states m))%nat
  /\ exists (result : ShapeResult) (m' : ModelImpl),
       step' m = Some ([result], m').
Proof.
  pose proof (getHillClimbState_length m) as Hlen.
  destruct (step_unfold m) as (st & Hst & Hstep).
  split; [exact Hlen |]. split; [lia |].
  split; [exact (lookup_lt_Some _ _ _ Hst) |].
  eexists _, _. exact Hstep.
Qed.

(** C4: the state whose shape a step draws is one of the collected states,
    no collected state has a smaller score, and every state collected
    before it has a strictly greater score. *)
Theorem step_draws_first_minimum (m : ModelImpl) :
  exists (i : nat) (st : State),
    states m !! i = Some st
    /\ step' m = Some ([fst (drawShape m (m_shape st) alpha)],
                       snd (drawShape m (m_shape st) alpha))
    /\ (forall (j : nat) (st' : State),
          states m !! j = Some st' -> (m_score st <= m_score st')%R)
    /\ (forall (j : nat) (st' : State),
          (j < i)%nat -> states m !! j = Some st' ->
          (m_score st < m_score st')%R).
Proof.
  destruct (min_element_spec m_score (states m) (states_nonempty m))
    as (st & Hst & Hmin & Hfirst).
  destruct (step_unfold m) as (st' & Hst' & Hstep).
  unfold scoreLess in Hst'. rewrite Hst in Hst'. injection Hst' as <-.
  exists (min_element scoreLess (states m)), st.
  split; [exact Hst |]. split; [exact Hstep |].
  split; [exact Hmin | exact Hfirst].
Qed.


(** [drawShape] keeps the stored score equal to the full difference when
    the runs of the shape stay inside the target and list no pixel twice. *)
Lemma drawShape_keeps_score (m : ModelImpl) (sh : S) :
  0 < core.rgbaCount (m_target m) ->
  m_lastScore m = core.differenceFull (m_target m) (m_current m) ->
  NoDup (core.pixelsOf (rasterize sh)) ->
  (forall p, p ∈ core.pixelsOf (rasterize sh) ->
             p ∈ core.allPixels (m_target m)) ->
  m_lastScore (snd (drawShape m sh alpha))
  = core.differenceFull (m_target (snd (drawShape m sh alpha)))
                        (m_current (snd (drawShape m sh alpha))).
Proof.
  intros Hcount Hscore Hnodup Hin. simpl. rewrite Hscore.
  now apply differencePartial_round_trip.
Qed.


End Step.

(** ** Bresenham's line: its last point *)

(** The error loop, started [n] major steps away from its target with [s]
    minor steps still owed, ends on the target. *)
Lemma bresenham_loop_last (mk : Z -> Z -> point) (A b iM im target : Z) :
  0 < A -> 0 <= b <= A -> iM = 1 \/ iM = -1 ->
  forall (n : nat) (error M m s : Z) (points : list point),
    target = M + iM * Z.of_nat n ->
    error = 2 * A * s - 2 * b * Z.of_nat n + 2 * b - A ->
    2 * b - 2 * A <= error <= 2 * b ->
    last points = Some (mk M m) ->
    last (bresenham_loop n mk (2 * A) (2 * b) iM im target error M m points)
    = Some (mk target (m + im * s)).
Proof.
  intros HA Hb HiM.
  induction n as [| n IH]; intros error M m s points Ht He Hbound Hlast.
  - simpl. assert (s = 0) by nia. subst s.
    replace target with M by lia. now rewrite Z.mul_0_r, Z.add_0_r.
  - simpl. destruct (Z.eqb_spec M target) as [Heq | _]; [nia |].
    destruct ((0 <=? error) && (negb (error =? 0) || (0 <? iM))) eqn:Estep.
    + replace (m + im * s) with (m + im + im * (s - 1)) by ring.
      apply andb_prop in Estep as [Hpos%Z.leb_le _].
      apply IH; [nia | nia | nia | apply last_snoc].
    + assert (Hcase : error < 0 \/ error = 0).
      { apply andb_false_iff in Estep as [Hneg | Hz].
        - left. now apply Z.leb_gt.
        - apply orb_false_iff in Hz as [Hz _].
          right. apply negb_false_iff in Hz. now apply Z.eqb_eq. }
      apply IH; [nia | nia | nia | apply last_snoc].
Qed.

Lemma bresenham_last (xa ya xb yb : Z) :
  last (bresenham xa ya xb yb) = Some (xb, yb).
Proof.
  unfold bresenham.
  rewrite !Z.shiftl_mul_pow2 by lia. change (2 ^ 1) with 2.
  rewrite !Z.shiftr_div_pow2 by lia. change (2 ^ 1) with 2.
  rewrite !(Z.mul_comm _ 2), !(Z.mul_comm 2 (Z.abs _)), !Z.div_mul by lia.
  rewrite !(Z.mul_comm (Z.abs _) 2).
  destruct (Z.leb_spec (2 * Z.abs (yb - ya)) (2 * Z.abs (xb - xa)))
    as [Hle | Hgt].
  - destruct (Z.eq_dec xb xa) as [-> | Hne].
    + assert (yb = ya) as -> by lia.
      rewrite Z.sub_diag. reflexivity.
    + rewrite (bresenham_loop_last (fun M m : Z => (M, m)))
        with (s := Z.abs (yb - ya));
        [do 2 f_equal; lia | lia .. | reflexivity].
  - rewrite (bresenham_loop_last (fun M m : Z => (m, M)))
      with (s := Z.abs (xb - xa));
      [do 2 f_equal; lia | lia .. | reflexivity].
Qed.


Lemma bresenham_point (xa ya : Z) : bresenham xa ya xa ya = [(xa, ya)].
Proof.
  unfold bresenham. rewrite !Z.sub_diag. reflexivity.
Qed.

Example bresenham_shallow :
  bresenham 0 0 5 2 = [(0, 0); (1, 0); (2, 1); (3, 1); (4, 2); (5, 2)].
Proof. reflexivity. Qed.

Example bresenham_steep_back :
  bresenham 3 3 2 0 = [(3, 3); (3, 2); (2, 1); (2, 0)].
Proof. reflexivity. Qed.

(** ** Scanlines: trimming and covering *)

Lemma covers_app (l1 l2 : list Scanline) (px py : Z) :
  covers (l1 ++ l2) px py <-> covers l1 px py \/ covers l2 px py.
Proof.
  unfold covers. split.
  - intros (l & Hin & Hl). apply elem_of_app in Hin as [Hin | Hin];
      [left | right]; exists l; auto.
  - intros [(l & Hin & Hl) | (l & Hin & Hl)]; exists l;
      (split; [apply elem_of_app; auto | exact Hl]).
Qed.

(** The runs made from a list of points cover exactly these points. *)
Lemma covers_points (pts : list point) (px py : Z) :
  covers (map QuadraticBezier.scanlineOf pts) px py <-> (px, py) ∈ pts.
Proof.
  unfold covers. split.
  - intros (l & Hin & Hy & Hx).
    apply list_elem_of_fmap in Hin as ([qx qy] & -> & Hq).
    simpl in Hy, Hx. replace px with qx by lia. now subst py.
  - intros Hin. exists (QuadraticBezier.scanlineOf (px, py)).
    split; [now apply list_elem_of_fmap_2 |]. simpl. lia.
Qed.

Lemma trimHelper_Some (w h : Z) (l l' : Scanline) :
  trimHelper w h l = Some l' <->
  0 <= y l < h /\ Z.max (x1 l) 0 <= Z.min (x2 l) (w - 1)
  /\ l' = mkScanline (y l) (Z.max (x1 l) 0) (Z.min (x2 l) (w - 1)) (alpha l).
Proof.
  unfold trimHelper.
  destruct (Z.ltb_spec (y l) 0), (Z.leb_spec h (y l)); simpl;
    try (split; [discriminate | lia]).
  destruct (Z.ltb_spec (Z.min (x2 l) (w - 1)) (Z.max (x1 l) 0)).
  - split; [discriminate | lia].
  - split.
    + intros [= <-]. repeat split; lia.
    + intros (_ & _ & ->). reflexivity.
Qed.

(** Trimming keeps of the covered pixels those inside the rectangle. *)
Lemma covers_trim (lines : list Scanline) (w h px py : Z) :
  covers (trim lines w h) px py <->
  covers lines px py /\ 0 <= px < w /\ 0 <= py < h.
Proof.
  unfold covers, trim. split.
  - intros (l' & Hin & Hy & Hx).
    apply list_elem_of_omap in Hin as (l & Hin & Hl).
    apply trimHelper_Some in Hl as (Hyl & Hne & ->). simpl in Hy, Hx.
    split; [exists l; repeat split; try assumption; lia | lia].
  - intros ((l & Hin & Hy & Hx) & Hpx & Hpy).
    exists (mkScanline (y l) (Z.max (x1 l) 0) (Z.min (x2 l) (w - 1))
                       (alpha l)).
    split; [| simpl; lia].
    apply list_elem_of_omap. exists l. split; [exact Hin |].
    apply trimHelper_Some. repeat split; lia.
Qed.


(** ** The quadratic Bezier: rasterization *)


(** What the loop of [rasterize] covers: what it started with, the segments
    between successive control points, and the segment from the last control
    point to itself. *)
Lemma rasterizeLoop_covers (cps : list point) (px py : Z) :
  forall lines : list Scanline,
    covers (QuadraticBezier.rasterizeLoop cps lines) px py <->
    covers lines px py
    \/ covers (polygonLines cps) px py
    \/ exists p, last cps = Some p
                 /\ (px, py) ∈ bresenham (fst p) (snd p) (fst p) (snd p).
Proof.
  induction cps as [| m1 rest IH]; intros lines.
  - simpl. split; [auto |].
    intros [Hc | [(l & Hin & _) | (p & Hp & _)]];
      [exact Hc | inversion Hin | discriminate].
  - destruct rest as [| next rest].
    + simpl. rewrite covers_app, covers_points. split.
      * intros [Hc | Hin]; [auto |]. right. right. exists m1. auto.
      * intros [Hc | [(l & Hin & _) | (p & [= <-] & Hin)]];
          [auto | inversion Hin | auto].
    + change (QuadraticBezier.rasterizeLoop (m1 :: next :: rest) lines)
        with (QuadraticBezier.rasterizeLoop (next :: rest)
                (lines ++ map QuadraticBezier.scanlineOf
                   (bresenham (fst m1) (snd m1) (fst next) (snd next)))).
      rewrite IH, covers_app.
      change (polygonLines (m1 :: next :: rest))
        with (map QuadraticBezier.scanlineOf
                  (bresenham (fst m1) (snd m1) (fst next) (snd next))
              ++ polygonLines (next :: rest)).
      rewrite covers_app.
      change (last (m1 :: next :: rest)) with (last (next :: rest)).
      tauto.
Qed.


(** X6: The runs of a shape the program can build end with the pixel of its last
    control point, listed twice: once as the end of the last segment, once
    for the segment from the last control point to itself. *)
Lemma rasterize_repeats_last (model : Model) (q : QuadraticBezier) :
  0 < getWidth model < 2 ^ 31 -> 0 < getHeight model < 2 ^ 31 ->
  reachable model q ->
  exists (pre : list Scanline) (p : point),
    last (m_controlPoints q) = Some p
    /\ QuadraticBezier.rasterize q
       = pre ++ [QuadraticBezier.scanlineOf p; QuadraticBezier.scanlineOf p].
Proof.
  intros Hw Hh Hq.
  destruct (reachable_inv model q Hq) as (Hm & Hlen & Hall).
  unfold QuadraticBezier.rasterize. rewrite Hm, !int32_small by lia.
  destruct (m_controlPoints q) as [| p0 [| p1 [| p2 [| p3 [| p4 rest]]]]];
    try discriminate Hlen.
  assert (Hp3 : inBounds model p3).
  { apply clamped_inBounds; [lia | lia |].
    rewrite Forall_forall in Hall. apply Hall.
    apply list_elem_of_In. simpl. tauto. }
  assert (Hkeep : trimHelper (getWidth model) (getHeight model)
                    (QuadraticBezier.scanlineOf p3)
                  = Some (QuadraticBezier.scanlineOf p3)).
  { apply trimHelper_Some. destruct Hp3 as [Hx Hy]. simpl.
    split; [lia |]. split; [lia |].
    unfold QuadraticBezier.scanlineOf. f_equal; lia. }
  pose proof (bresenham_last (fst p2) (snd p2) (fst p3) (snd p3)) as Hlast.
  apply last_Some in Hlast as [seg Hseg].
  destruct p3 as [x3 y3]. simpl in Hseg.
  exists (trim (map QuadraticBezier.scanlineOf
                    (bresenham (fst p0) (snd p0) (fst p1) (snd p1))
                ++ map QuadraticBezier.scanlineOf
                       (bresenham (fst p1) (snd p1) (fst p2) (snd p2))
                ++ map QuadraticBezier.scanlineOf seg)
               (getWidth model) (getHeight model)), (x3, y3).
  split; [reflexivity |].
  simpl. rewrite bresenham_point, Hseg. unfold trim.
  rewrite map_app. simpl.
  rewrite !omap_app. simpl. rewrite Hkeep. simpl.
  rewrite <- !app_assoc. reflexivity.
Qed.





(** The pixels of the sample shape. *)
Example clippedPolygon_sample :
  clippedPolygon sampleBezier
  = [(0, 2); (1, 1); (2, 1); (3, 0);
     (3, 0); (2, 0); (1, 0); (0, 0);
     (0, 0); (1, 1); (2, 1); (3, 2)].
Proof. reflexivity. Qed.


(** ** The model: the score on the 1 x 1 bitmaps *)

Lemma reachable_unit : reachable unitModel unitBezier.
Proof. apply reachable_new with (fun _ => 0). reflexivity. Qed.

(** Every shape built for the 1 x 1 model is [unitBezier]. *)
Lemma reachable_unit_only (q : QuadraticBezier) :
  reachable unitModel q -> q = unitBezier.
Proof.
  intros Hq.
  destruct (reachable_inv unitModel q Hq) as (Hm & Hlen & Hall).
  destruct q as [model cps]. simpl in *. subst model.
  assert (Hp : forall p : point, clamped unitModel p -> p = (0, 0)).
  { intros p Hc.
    apply clamped_inBounds in Hc as [Hx Hy]; [| simpl; lia | simpl; lia].
    destruct p as [px py]. simpl in Hx, Hy. f_equal; lia. }
  destruct cps as [| p0 [| p1 [| p2 [| p3 [| p4 rest]]]]];
    try discriminate Hlen.
  repeat match goal with
         | H : Forall _ (_ :: _) |- _ =>
           apply Forall_cons in H; destruct H as [?%Hp H]
         end.
  subst. reflexivity.
Qed.

(** The runs of [unitBezier]: the only pixel, four times. *)
Lemma rasterize_unit :
  QuadraticBezier.rasterize unitBezier
  = [mkScanline 0 0 0 65535; mkScanline 0 0 0 65535;
     mkScanline 0 0 0 65535; mkScanline 0 0 0 65535].
Proof. reflexivity. Qed.

Lemma blackOnWhite_score :
  m_lastScore blackOnWhite = (sqrt (195075 / 4) / 255)%R.
Proof. reflexivity. Qed.

Lemma blackOnWhiteDrawn_delta :
  core.partialDelta (m_target blackOnWhite) (m_current blackOnWhite)
    (m_current blackOnWhiteDrawn) (rasterize unitBezier)
  = (-777600)%Z.
Proof. reflexivity. Qed.

(** The constructors and [reset] store the full difference. *)
Lemma lastScore_after_new (target : Bitmap) (backgroundColor : rgba) :
  m_lastScore (ModelImpl_new target backgroundColor)
  = core.differenceFull (m_target (ModelImpl_new target backgroundColor))
                        (m_current (ModelImpl_new target backgroundColor)).
Proof. reflexivity. Qed.

Lemma lastScore_after_new_initial (target initial : Bitmap) (m : ModelImpl) :
  ModelImpl_new_initial target initial = Some m ->
  m_lastScore m = core.differenceFull (m_target m) (m_current m).
Proof.
  unfold ModelImpl_new_initial.
  destruct (_ && _); [intros [= <-]; reflexivity | discriminate].
Qed.

Lemma lastScore_after_reset (m : ModelImpl) (backgroundColor : rgba) :
  m_lastScore (reset m backgroundColor)
  = core.differenceFull (m_target (reset m backgroundColor))
                        (m_current (reset m backgroundColor)).
Proof. reflexivity. Qed.

Lemma blackOnWhiteDrawn_score : m_lastScore blackOnWhiteDrawn = 0%R.
Proof.
  change (m_lastScore blackOnWhiteDrawn)
    with (core.differencePartial (m_target blackOnWhite)
            (m_current blackOnWhite) (m_current blackOnWhiteDrawn)
            (m_lastScore blackOnWhite) (rasterize unitBezier)).
  unfold core.differencePartial.
  rewrite blackOnWhiteDrawn_delta, blackOnWhite_score.
  change (core.rgbaCount (m_target blackOnWhite)) with 4%Z.
  rewrite score_square by lra.
  rewrite Rmax_left by lra.
  unfold Rdiv at 2. rewrite Rmult_0_l, sqrt_0. lra.
Qed.

Lemma blackOnWhiteDrawn_full :
  (1 / 20 < core.differenceFull (m_target blackOnWhiteDrawn)
                                (m_current blackOnWhiteDrawn))%R.
Proof.
  change (core.differenceFull (m_target blackOnWhiteDrawn)
                              (m_current blackOnWhiteDrawn))
    with (sqrt (675 / 4) / 255)%R.
  assert (Hs : (51 / 4 < sqrt (675 / 4))%R).
  { rewrite <- (sqrt_pow2 (51 / 4)) by lra.
    apply sqrt_lt_1_alt. lra. }
  lra.
Qed.

(** C1: on a 1 x 1 black target with a white canvas, the stored score is
    [differenceFull] of target and canvas after construction; after
    [drawShape (unitBezier, 128)] the stored score is 0 while the canvas
    holds (15, 15, 15, 255) and [differenceFull] of target and canvas is
    above 1/20, so that the two differ by more than 1e-6: the pixel is listed
    four times by [rasterize] and its change is counted four times by
    [differencePartial]. *)
Theorem drawShape_score_drifts :
  modelOf blackOnWhite = unitModel
  /\ reachable unitModel unitBezier
  /\ m_lastScore blackOnWhite
     = core.differenceFull (m_target blackOnWhite) (m_current blackOnWhite)
  /\ m_current blackOnWhiteDrawn = mkBitmap 1 1 [mkRgba 15 15 15 255]
  /\ m_lastScore blackOnWhiteDrawn = 0%R
  /\ (1 / 20 < core.differenceFull (m_target blackOnWhiteDrawn)
                                   (m_current blackOnWhiteDrawn))%R
  /\ ~ (Rabs (m_lastScore blackOnWhiteDrawn
              - core.differenceFull (m_target blackOnWhiteDrawn)
                                    (m_current blackOnWhiteDrawn))
        <= 1 / 1000000)%R.
Proof.
  split; [reflexivity |]. split; [exact reachable_unit |].
  split; [reflexivity |]. split; [reflexivity |].
  split; [exact blackOnWhiteDrawn_score |].
  split; [exact blackOnWhiteDrawn_full |].
  pose proof blackOnWhiteDrawn_full as Hfull.
  rewrite blackOnWhiteDrawn_score. intros Habs.
  unfold Rabs in Habs. destruct (Rcase_abs _) in Habs; lra.
Qed.

Lemma transparent_score : m_lastScore transparent = 0%R.
Proof.
  change (m_lastScore transparent) with (sqrt (0 / 4) / 255)%R.
  unfold Rdiv at 2. rewrite Rmult_0_l, sqrt_0. lra.
Qed.

Lemma transparent_draw_score :
  score (fst (drawShape transparent unitBezier 128)) = (240 / 255)%R.
Proof.
  change (score (fst (drawShape transparent unitBezier 128)))
    with (sqrt (Rmax 0 ((m_lastScore transparent * 255) ^ 2 * 4 + 230400)
                / 4) / 255)%R.
  rewrite transparent_score.
  replace ((0 * 255) ^ 2 * 4 + 230400)%R with 230400%R by lra.
  rewrite Rmax_right by lra.
  replace (230400 / 4)%R with (240 ^ 2)%R by lra.
  rewrite sqrt_pow2 by lra. reflexivity.
Qed.

(** Whatever the workers do, as long as the shapes they return are
    quadratic Beziers built for the model, a step of the transparent 1 x 1
    model with alpha 128 returns the score 240/255. *)
Lemma transparent_step_any_worker
    (bestHillClimbState :
       ShapeTypes -> Z -> Z -> Z -> Z -> Bitmap -> Bitmap -> Bitmap -> Rng
       -> @State QuadraticBezier)
    (threadRng : nat -> Rng)
    (hardware_concurrency shapeCount maxShapeMutations passes : Z) :
  (forall (target current buffer : Bitmap) (g : Rng),
      reachable (mkModel (bmWidth target) (bmHeight target))
        (m_shape (bestHillClimbState QUADRATIC_BEZIER 128 shapeCount
                    maxShapeMutations passes target current buffer g))) ->
  exists (result : ShapeResult) (m' : ModelImpl),
    step bestHillClimbState threadRng hardware_concurrency QUADRATIC_BEZIER
         128 shapeCount maxShapeMutations passes transparent
    = Some ([result], m')
    /\ score result = (240 / 255)%R
    /\ (m_lastScore transparent < score result)%R.
Proof.
  intros Hworker.
  destruct (step_unfold bestHillClimbState threadRng hardware_concurrency
              QUADRATIC_BEZIER 128 shapeCount maxShapeMutations passes
              transparent) as (st & Hst & Hstep).
  apply list_elem_of_lookup_2 in Hst.
  apply getHillClimbState_elem in Hst as [k ->].
  rewrite (reachable_unit_only _
             (Hworker (m_target transparent) (m_current transparent)
                      (m_current transparent) (threadRng k))) in Hstep.
  eexists _, _. split; [exact Hstep |].
  rewrite transparent_draw_score, transparent_score. split; lra.
Qed.



(** * Further properties of the code *)

(** ** The quadratic Bezier: cloning *)

(** X1: [clone] returns a shape equal to the original one, and leaves the
    generator where the constructor leaves it: ten calls of [randomRange]
    further. *)
Theorem clone_copies_and_draws (q : QuadraticBezier) (g : Rng) :
  QuadraticBezier.clone q g = Some (q, fun n => g (10 + n)%nat)
  /\ snd <$> QuadraticBezier.new (m_model q) g
     = Some (fun n => g (10 + n)%nat).
Proof.
  destruct q as [model cps]. split; reflexivity.
Qed.

(** ** The quadratic Bezier: how far the points go *)

Lemma pushPoints_jittered (xBound yBound : Z) (n : nat) (start : point) :
  forall (acc : list point) (g : Rng),
  exists pts g',
    QuadraticBezier.pushPoints n xBound yBound start acc g
    = Some (acc ++ pts, g')
    /\ Forall (jittered xBound yBound 32 start) pts.
Proof.
  induction n as [| n IH]; intros acc g.
  - exists [], g. rewrite app_nil_r. split; constructor.
  - simpl. cbv beta iota zeta delta [bind randomRange].
    match goal with
    | |- context [QuadraticBezier.pushPoints n _ _ _ (acc ++ [?p]) ?g1] =>
      destruct (IH (acc ++ [p]) g1) as (pts & g' & Heq & Hall);
      exists (p :: pts), g'
    end.
    rewrite Heq, <- app_assoc. simpl. split; [reflexivity |].
    constructor; [| exact Hall].
    pose proof (Z.mod_pos_bound (g 0%nat) 65 ltac:(lia)).
    pose proof (Z.mod_pos_bound (g 1%nat) 65 ltac:(lia)).
    change (32 - -32 + 1) with 65.
    exists (-32 + g 0%nat mod 65), (-32 + g 1%nat mod 65).
    split; [lia |]. split; [lia | reflexivity].
Qed.

(** The constructor on dimensions that leave room for the jitter: every
    control point is the starting point moved by at most 32 in each
    direction, clamped. *)
Lemma new_jittered (model : Model) (g : Rng) :
  0 < getWidth model < 2 ^ 31 -> 0 < getHeight model < 2 ^ 31 ->
  exists (start : point) (q : QuadraticBezier),
    run (QuadraticBezier.startingPoint (getWidth model) (getHeight model)) g
    = Some start
    /\ 0 <= fst start <= getWidth model
    /\ 0 <= snd start <= getHeight model - 1
    /\ run (QuadraticBezier.new model) g = Some q
    /\ Forall (jittered (getWidth model) (getHeight model) 32 start)
              (m_controlPoints q).
Proof.
  intros Hw Hh.
  destruct (startingPoint_range model g Hw Hh)
    as (sx & sy & Hstart & Hsx & Hsy).
  rewrite !int32_small in Hstart by lia.
  unfold run, QuadraticBezier.new.
  cbv beta iota zeta delta [bind ret].
  rewrite !int32_small by lia.
  unfold run in Hstart.
  destruct (QuadraticBezier.startingPoint (getWidth model) (getHeight model) g)
    as [[start g1] |] eqn:Hs; [| discriminate].
  simpl in Hstart. injection Hstart as ->.
  destruct (pushPoints_jittered (getWidth model) (getHeight model) 4
              (sx, sy) [] g1) as (pts & g' & Heq & Hall).
  rewrite Heq. simpl.
  exists (sx, sy), (mkQuadraticBezier model pts).
  repeat split; try assumption; simpl; lia.
Qed.

(** X2: The control points of a freshly constructed shape form a cluster: any
    two of them are at most 64 apart in each coordinate (each one is within
    32 of the starting point before the clamp). *)
Theorem new_cluster (model : Model) (g : Rng) :
  0 < getWidth model < 2 ^ 31 - 32 -> 0 < getHeight model < 2 ^ 31 - 32 ->
  exists q : QuadraticBezier,
    run (QuadraticBezier.new model) g = Some q
    /\ forall p p' : point,
         p ∈ m_controlPoints q -> p' ∈ m_controlPoints q ->
         Z.abs (fst p - fst p') <= 64 /\ Z.abs (snd p - snd p') <= 64.
Proof.
  intros Hw Hh.
  destruct (new_jittered model g ltac:(lia) ltac:(lia))
    as (start & q & _ & Hsx & Hsy & Hq & Hall).
  exists q. split; [exact Hq |].
  intros p p' Hp Hp'. rewrite Forall_forall in Hall.
  destruct (Hall p Hp) as (jx & jy & Hjx & Hjy & ->).
  destruct (Hall p' Hp') as (jx' & jy' & Hjx' & Hjy' & ->).
  unfold add32, sub32. rewrite !int32_small by lia.
  unfold clamp. simpl. lia.
Qed.

(** The cluster of the sample shape. *)
Lemma new_cluster_witness :
  0 < getWidth sampleModel < 2 ^ 31 - 32
  /\ 0 < getHeight sampleModel < 2 ^ 31 - 32
  /\ exists q : QuadraticBezier,
       run (QuadraticBezier.new sampleModel) sampleRng = Some q
       /\ forall p p' : point,
            p ∈ m_controlPoints q -> p' ∈ m_controlPoints q ->
            Z.abs (fst p - fst p') <= 64 /\ Z.abs (snd p - snd p') <= 64.
Proof.
  split; [simpl; lia |]. split; [simpl; lia |].
  apply (new_cluster sampleModel sampleRng); simpl; lia.
Defined.

(** The points of a shape the program can build lie inside the bitmap. *)
Lemma reachable_inBounds (model : Model) (q : QuadraticBezier) (i : nat)
    (p : point) :
  0 < getWidth model -> 0 < getHeight model ->
  reachable model q -> m_controlPoints q !! i = Some p -> inBounds model p.
Proof.
  intros Hw Hh Hq Hp.
  destruct (reachable_inv model q Hq) as (_ & _ & Hall).
  rewrite Forall_forall in Hall.
  apply clamped_inBounds; [exact Hw | exact Hh |].
  apply Hall. eapply list_elem_of_lookup_2. exact Hp.
Qed.

(** X3: A mutation is local: every control point of the mutated shape is at
    most 64 away, in each coordinate, from the control point it replaces. *)
Theorem mutate_local (model : Model) (q : QuadraticBezier) (g : Rng) :
  0 < getWidth model < 2 ^ 31 - 64 -> 0 < getHeight model < 2 ^ 31 - 64 ->
  reachable model q ->
  exists q' : QuadraticBezier,
    run (QuadraticBezier.mutate q) g = Some q'
    /\ forall (j : nat) (p p' : point),
         m_controlPoints q !! j = Some p ->
         m_controlPoints q' !! j = Some p' ->
         Z.abs (fst p' - fst p) <= 64 /\ Z.abs (snd p' - snd p) <= 64.
Proof.
  intros Hw Hh Hq.
  destruct (reachable_inv model q Hq) as (Hm & Hlen & _).
  destruct (mutate_spec q g)
    as (q' & p0 & jx & jy & Hrun & Hidx & Hp0 & Hjx & Hjy & _ & Hcps).
  { lia. }
  { rewrite Hlen. reflexivity. }
  exists q'. split; [exact Hrun |].
  intros j p p' Hp Hp'. rewrite Hcps in Hp'.
  destruct (decide (j = mutateIndex q g)) as [-> | Hne].
  - rewrite list_lookup_insert_eq in Hp' by exact Hidx.
    injection Hp' as <-. rewrite Hp0 in Hp. injection Hp as ->.
    destruct (reachable_inBounds model q _ p ltac:(lia) ltac:(lia) Hq Hp0)
      as [Hx Hy].
    rewrite Hm. unfold perturbed, add32, sub32.
    rewrite (int32_small (getWidth model)), (int32_small (getHeight model))
      by lia.
    rewrite !int32_small by lia. unfold clamp. simpl. lia.
  - rewrite list_lookup_insert_ne in Hp' by congruence.
    rewrite Hp in Hp'. injection Hp' as <-. lia.
Qed.

(** A mutation of the sample shape. *)
Lemma mutate_local_witness :
  0 < getWidth sampleModel < 2 ^ 31 - 64
  /\ 0 < getHeight sampleModel < 2 ^ 31 - 64
  /\ reachable sampleModel sampleBezier
  /\ exists q' : QuadraticBezier,
       run (QuadraticBezier.mutate sampleBezier) mutateRng1 = Some q'
       /\ forall (j : nat) (p p' : point),
            m_controlPoints sampleBezier !! j = Some p ->
            m_controlPoints q' !! j = Some p' ->
            Z.abs (fst p' - fst p) <= 64 /\ Z.abs (snd p' - snd p) <= 64.
Proof.
  split; [simpl; lia |]. split; [simpl; lia |].
  split; [exact reachable_sample |].
  apply (mutate_local sampleModel sampleBezier mutateRng1);
    [simpl; lia | simpl; lia | exact reachable_sample].
Defined.

(** X4: A mutation may change nothing: with both jitters at 0 the shape comes
    back as it was, whichever control point is drawn. *)
Theorem mutate_may_keep (model : Model) (q : QuadraticBezier) (i : Z) :
  0 < getWidth model < 2 ^ 31 -> 0 < getHeight model < 2 ^ 31 ->
  reachable model q ->
  run (QuadraticBezier.mutate q)
      (fun n => match n with O => i | _ => 64 end)
  = Some q.
Proof.
  intros Hw Hh Hq.
  set (g := fun n : nat => match n with O => i | _ => 64 end).
  destruct (reachable_inv model q Hq) as (Hm & Hlen & _).
  assert (Hpos : (0 < length (m_controlPoints q))%nat) by lia.
  assert (Hsmall : Z.of_nat (length (m_controlPoints q)) < 2 ^ 31)
    by (rewrite Hlen; reflexivity).
  assert (Hidx : (mutateIndex q g < length (m_controlPoints q))%nat).
  { unfold mutateIndex.
    pose proof (Z.mod_pos_bound (g 0%nat)
                  (Z.of_nat (length (m_controlPoints q))) ltac:(lia)).
    lia. }
  destruct (lookup_lt_is_Some_2 _ _ Hidx) as [p Hp].
  destruct (reachable_inBounds model q _ p ltac:(lia) ltac:(lia) Hq Hp)
    as [Hx Hy].
  unfold run, QuadraticBezier.mutate.
  set (n := Z.of_nat (length (m_controlPoints q))) in *.
  cbv beta iota zeta delta [bind randomRange ret].
  assert (Hst : size_t (n - 1) = n - 1).
  { unfold size_t. apply Z.mod_small. lia. }
  rewrite Hst. replace (n - 1 - 0 + 1) with n by lia.
  pose proof (Z.mod_pos_bound (g 0%nat) n ltac:(lia)) as Hmod.
  rewrite (int32_small (0 + g 0%nat mod n)) by lia.
  destruct (Z.ltb_spec (0 + g 0%nat mod n) 0) as [Hneg | _]; [lia |].
  replace (Z.to_nat (0 + g 0%nat mod n)) with (mutateIndex q g)
    by (unfold mutateIndex; fold n; f_equal; lia).
  unfold point in *. rewrite Hp. simpl.
  change (64 mod 129) with 64. change (-64 + 64) with 0.
  unfold add32, sub32. rewrite Hm, !Z.add_0_r.
  rewrite (int32_small (getWidth model)), (int32_small (getHeight model))
    by lia.
  rewrite !int32_small by lia.
  replace (clamp p.1 0 (getWidth model - 1)) with p.1 by (unfold clamp; lia).
  replace (clamp p.2 0 (getHeight model - 1)) with p.2 by (unfold clamp; lia).
  rewrite <- surjective_pairing, list_insert_id by exact Hp.
  destruct q as [mdl cps]. simpl in *. now subst mdl.
Qed.

(** The sample shape, mutated with no jitter. *)
Lemma mutate_may_keep_witness :
  0 < getWidth sampleModel < 2 ^ 31 /\ 0 < getHeight sampleModel < 2 ^ 31
  /\ reachable sampleModel sampleBezier
  /\ run (QuadraticBezier.mutate sampleBezier)
         (fun n => match n with O => 2 | _ => 64 end)
     = Some sampleBezier.
Proof.
  split; [simpl; lia |]. split; [simpl; lia |].
  split; [exact reachable_sample |].
  apply (mutate_may_keep sampleModel sampleBezier 2);
    [simpl; lia | simpl; lia | exact reachable_sample].
Defined.

(** ** The quadratic Bezier: its runs *)

Lemma rasterizeLoop_runs (cps : list point) :
  forall lines : list Scanline,
    Forall (fun l => x1 l = x2 l /\ alpha l = 65535) lines ->
    Forall (fun l => x1 l = x2 l /\ alpha l = 65535)
           (QuadraticBezier.rasterizeLoop cps lines).
Proof.
  induction cps as [| m1 rest IH]; intros lines Hall; simpl; [exact Hall |].
  apply IH. apply Forall_app. split; [exact Hall |].
  apply Forall_forall. intros l Hl.
  apply list_elem_of_fmap in Hl as (p & -> & _). split; reflexivity.
Qed.

(** X5: Whatever the shape, every run that [rasterize] returns is one pixel of
    the bitmap, with the alpha 0xFFFF the loop gives it. *)
Theorem rasterize_in_bitmap (q : QuadraticBezier) (l : Scanline) :
  l ∈ QuadraticBezier.rasterize q ->
  0 <= y l < int32 (getHeight (m_model q))
  /\ 0 <= x1 l /\ x1 l = x2 l /\ x2 l < int32 (getWidth (m_model q))
  /\ alpha l = 65535.
Proof.
  unfold QuadraticBezier.rasterize, trim. intros Hin.
  apply list_elem_of_omap in Hin as (l0 & Hin & Hl).
  apply trimHelper_Some in Hl as (Hy & Hne & ->). simpl.
  pose proof (rasterizeLoop_runs (m_controlPoints q) [] (Forall_nil_2 _))
    as Hsrc.
  rewrite Forall_forall in Hsrc. destruct (Hsrc l0 Hin) as [Hx Ha].
  repeat split; lia.
Qed.

(** The runs of the sample shape. *)
Lemma rasterize_in_bitmap_witness :
  mkScanline 1 2 2 65535 ∈ QuadraticBezier.rasterize sampleBezier
  /\ (0 <= 1 < int32 (getHeight (m_model sampleBezier))
      /\ 0 <= 2 /\ 2 = 2 /\ 2 < int32 (getWidth (m_model sampleBezier))
      /\ 65535 = 65535).
Proof.
  assert (Hin : mkScanline 1 2 2 65535
                ∈ QuadraticBezier.rasterize sampleBezier).
  { apply list_elem_of_In. vm_compute. tauto. }
  split; [exact Hin |].
  exact (rasterize_in_bitmap sampleBezier (mkScanline 1 2 2 65535) Hin).
Defined.

(** The runs of a shape the program can build end with the pixel of the
    last control point, twice. *)
Lemma rasterize_repeats_last_witness :
  0 < getWidth sampleModel < 2 ^ 31 /\ 0 < getHeight sampleModel < 2 ^ 31
  /\ reachable sampleModel sampleBezier
  /\ exists (pre : list Scanline) (p : point),
       last (m_controlPoints sampleBezier) = Some p
       /\ QuadraticBezier.rasterize sampleBezier
          = pre ++ [QuadraticBezier.scanlineOf p;
                    QuadraticBezier.scanlineOf p].
Proof.
  split; [simpl; lia |]. split; [simpl; lia |].
  split; [exact reachable_sample |].
  apply (rasterize_repeats_last sampleModel sampleBezier);
    [simpl; lia | simpl; lia | exact reachable_sample].
Defined.

(** The error loop only adds points after those it was given. *)
Lemma bresenham_loop_prefix (mk : Z -> Z -> point) (dM dm iM im target : Z)
    (fuel : nat) :
  forall (error M m : Z) (points : list point),
  exists rest,
    bresenham_loop fuel mk dM dm iM im target error M m points
    = points ++ rest.
Proof.
  induction fuel as [| fuel IH]; intros error M m points; simpl.
  - exists []. now rewrite app_nil_r.
  - destruct (M =? target); [exists []; now rewrite app_nil_r |].
    match goal with
    | |- context [bresenham_loop fuel _ _ _ _ _ _ ?e ?M1 ?m1
                    (points ++ [?p])] =>
      destruct (IH e M1 m1 (points ++ [p])) as [rest ->];
      exists (p :: rest)
    end.
    now rewrite <- app_assoc.
Qed.

Lemma bresenham_start (xa ya xb yb : Z) :
  (xa, ya) ∈ bresenham xa ya xb yb.
Proof.
  unfold bresenham. cbv zeta.
  destruct (_ <=? _);
    match goal with
    | |- _ ∈ bresenham_loop ?f ?mk ?dM ?dm ?iM ?im ?t ?e ?M ?m ?pts =>
      destruct (bresenham_loop_prefix mk dM dm iM im t f e M m pts)
        as [rest ->]
    end; apply elem_of_app; left; apply list_elem_of_here.
Qed.

(** Every control point is on the control polygon or is the last one. *)
Lemma control_point_on_polygon (cps : list point) (p : point) :
  p ∈ cps ->
  covers (polygonLines cps) (fst p) (snd p) \/ last cps = Some p.
Proof.
  induction cps as [| m1 rest IH]; intros Hin; [inversion Hin |].
  destruct rest as [| next rest].
  - right. apply list_elem_of_singleton in Hin. now subst.
  - change (polygonLines (m1 :: next :: rest))
      with (map QuadraticBezier.scanlineOf
                (bresenham (fst m1) (snd m1) (fst next) (snd next))
            ++ polygonLines (next :: rest)).
    change (last (m1 :: next :: rest)) with (last (next :: rest)).
    rewrite covers_app.
    apply elem_of_cons in Hin as [-> | Hin].
    + left. left. apply covers_points, bresenham_start.
    + destruct (IH Hin) as [Hc | Hl]; [left; right; exact Hc | right; exact Hl].
Qed.

(** X7: Every control point of a shape the program can build is a pixel of its
    rasterization. *)
Theorem rasterize_covers_control_points (model : Model) (q : QuadraticBezier)
    (p : point) :
  0 < getWidth model < 2 ^ 31 -> 0 < getHeight model < 2 ^ 31 ->
  reachable model q -> p ∈ m_controlPoints q ->
  covers (QuadraticBezier.rasterize q) (fst p) (snd p).
Proof.
  intros Hw Hh Hq Hp.
  destruct (reachable_inv model q Hq) as (Hm & _ & Hall).
  rewrite Forall_forall in Hall.
  destruct (clamped_inBounds model p ltac:(lia) ltac:(lia) (Hall p Hp))
    as [Hx Hy].
  unfold QuadraticBezier.rasterize.
  rewrite Hm, !int32_small by lia.
  apply covers_trim. split; [| lia].
  apply rasterizeLoop_covers. right.
  destruct (control_point_on_polygon _ p Hp) as [Hc | Hl];
    [left; exact Hc | right].
  exists p. split; [exact Hl |]. rewrite bresenham_point.
  destruct p. apply list_elem_of_here.
Qed.

(** The control points of the sample shape. *)
Lemma rasterize_covers_control_points_witness :
  0 < getWidth sampleModel < 2 ^ 31 /\ 0 < getHeight sampleModel < 2 ^ 31
  /\ reachable sampleModel sampleBezier
  /\ (3, 0) ∈ m_controlPoints sampleBezier
  /\ covers (QuadraticBezier.rasterize sampleBezier) 3 0.
Proof.
  assert (Hin : (3, 0) ∈ m_controlPoints sampleBezier).
  { apply list_elem_of_In. simpl. tauto. }
  split; [simpl; lia |]. split; [simpl; lia |].
  split; [exact reachable_sample |]. split; [exact Hin |].
  apply (rasterize_covers_control_points sampleModel sampleBezier (3, 0));
    [simpl; lia | simpl; lia | exact reachable_sample | exact Hin].
Defined.

(** ** The quadratic Bezier: its serialisation *)

(** X9: The raw data determine the control points: two shapes with the
    same raw data have the same control points. *)
Theorem getRawShapeData_injective (q q' : QuadraticBezier) :
  QuadraticBezier.getRawShapeData q = QuadraticBezier.getRawShapeData q' ->
  m_controlPoints q = m_controlPoints q'.
Proof.
  unfold QuadraticBezier.getRawShapeData. rewrite !rawLoop_flat. simpl.
  generalize (m_controlPoints q') as l'. generalize (m_controlPoints q) as l.
  induction l as [| [a b] l IH]; intros [| [a' b'] l']; simpl;
    try discriminate; [reflexivity |].
  intros [= -> -> Heq]. f_equal. now apply IH.
Qed.

(** Two shapes with the same raw data. *)
Lemma getRawShapeData_injective_witness :
  QuadraticBezier.getRawShapeData sampleBezier
  = QuadraticBezier.getRawShapeData
      (mkQuadraticBezier unitModel (m_controlPoints sampleBezier))
  /\ m_controlPoints sampleBezier
     = m_controlPoints
         (mkQuadraticBezier unitModel (m_controlPoints sampleBezier)).
Proof.
  split; [reflexivity |].
  apply (getRawShapeData_injective sampleBezier
           (mkQuadraticBezier unitModel (m_controlPoints sampleBezier))).
  reflexivity.
Defined.

(** ** Bresenham's line: its points *)

(** The error loop, started [n] major steps away from its target with [s]
    minor steps still owed, adds [n] points, each between the point it
    starts from and the point it ends on. *)
Lemma bresenham_loop_box (mk : Z -> Z -> point) (A b iM im target : Z) :
  0 < A -> 0 <= b <= A -> iM = 1 \/ iM = -1 ->
  forall (n : nat) (error M m s : Z) (points : list point),
    target = M + iM * Z.of_nat n ->
    error = 2 * A * s - 2 * b * Z.of_nat n + 2 * b - A ->
    2 * b - 2 * A <= error <= 2 * b ->
    0 <= s ->
    exists rest,
      bresenham_loop n mk (2 * A) (2 * b) iM im target error M m points
      = points ++ rest
      /\ length rest = n
      /\ Forall (fun p => exists j k,
                   p = mk (M + iM * j) (m + im * k)
                   /\ 0 <= j <= Z.of_nat n /\ 0 <= k <= s) rest.
Proof.
  intros HA Hb HiM.
  induction n as [| n IH]; intros error M m s points Ht He Hbound Hs.
  - exists []. simpl. rewrite app_nil_r. repeat split. constructor.
  - simpl. destruct (Z.eqb_spec M target) as [Heq | _]; [nia |].
    destruct ((0 <=? error) && (negb (error =? 0) || (0 <? iM))) eqn:Estep.
    + apply andb_prop in Estep as [Hpos%Z.leb_le _].
      assert (Hs1 : 1 <= s) by nia.
      destruct (IH (error - 2 * A + 2 * b) (M + iM) (m + im) (s - 1)
                   (points ++ [mk (M + iM) (m + im)]))
        as (rest & Heq & Hlen & Hall); [nia | nia | nia | lia |].
      exists (mk (M + iM) (m + im) :: rest).
      rewrite Heq, <- app_assoc. split; [reflexivity |].
      split; [simpl; now rewrite Hlen |].
      constructor.
      * exists 1, 1. split; [f_equal; lia | lia].
      * eapply Forall_impl; [exact Hall |].
        intros p (j & k & -> & Hj & Hk). exists (j + 1), (k + 1).
        split; [f_equal; lia | lia].
    + assert (Hcase : error < 0 \/ error = 0).
      { apply andb_false_iff in Estep as [Hneg | Hz].
        - left. now apply Z.leb_gt.
        - apply orb_false_iff in Hz as [Hz _].
          right. apply negb_false_iff in Hz. now apply Z.eqb_eq. }
      destruct (IH (error + 2 * b) (M + iM) m s
                   (points ++ [mk (M + iM) m]))
        as (rest & Heq & Hlen & Hall); [nia | nia | nia | lia |].
      exists (mk (M + iM) m :: rest).
      rewrite Heq, <- app_assoc. split; [reflexivity |].
      split; [simpl; now rewrite Hlen |].
      constructor.
      * exists 1, 0. split; [f_equal; lia | lia].
      * eapply Forall_impl; [exact Hall |].
        intros p (j & k & -> & Hj & Hk). exists (j + 1), k.
        split; [f_equal; lia | lia].
Qed.

(** The line has one point for the start and one for each step along the
    longer side, and stays in the rectangle spanned by its two ends. *)
Lemma bresenham_points (xa ya xb yb : Z) :
  length (bresenham xa ya xb yb)
  = S (Z.to_nat (Z.max (Z.abs (xb - xa)) (Z.abs (yb - ya))))
  /\ forall p : point,
       p ∈ bresenham xa ya xb yb ->
       Z.min xa xb <= fst p <= Z.max xa xb
       /\ Z.min ya yb <= snd p <= Z.max ya yb.
Proof.
  unfold bresenham.
  rewrite !Z.shiftl_mul_pow2 by lia. change (2 ^ 1) with 2.
  rewrite !Z.shiftr_div_pow2 by lia. change (2 ^ 1) with 2.
  rewrite !(Z.mul_comm _ 2), !(Z.mul_comm 2 (Z.abs _)), !Z.div_mul by lia.
  rewrite !(Z.mul_comm (Z.abs _) 2).
  destruct (Z.leb_spec (2 * Z.abs (yb - ya)) (2 * Z.abs (xb - xa)))
    as [Hle | Hgt].
  - destruct (Z.eq_dec xb xa) as [-> | Hne].
    + assert (yb = ya) as -> by lia.
      rewrite !Z.sub_diag. simpl. split; [reflexivity |].
      intros p Hp. apply list_elem_of_singleton in Hp as ->. simpl. lia.
    + destruct (bresenham_loop_box (fun M m : Z => (M, m))
                  (Z.abs (xb - xa)) (Z.abs (yb - ya)) (Z.sgn (xb - xa))
                  (Z.sgn (yb - ya)) xb ltac:(lia) ltac:(lia) ltac:(lia)
                  (Z.to_nat (Z.abs (xb - xa)))
                  (2 * Z.abs (yb - ya) - Z.abs (xb - xa)) xa ya
                  (Z.abs (yb - ya)) [(xa, ya)]
                  ltac:(lia) ltac:(lia) ltac:(lia) ltac:(lia))
        as (rest & -> & Hlen & Hall).
      split; [simpl; rewrite Hlen; f_equal; lia |].
      intros p Hp. apply elem_of_cons in Hp as [-> | Hp]; [simpl; lia |].
      rewrite Forall_forall in Hall.
      destruct (Hall p Hp) as (j & k & -> & Hj & Hk). simpl. nia.
  - destruct (bresenham_loop_box (fun M m : Z => (m, M))
                (Z.abs (yb - ya)) (Z.abs (xb - xa)) (Z.sgn (yb - ya))
                (Z.sgn (xb - xa)) yb ltac:(lia) ltac:(lia) ltac:(lia)
                (Z.to_nat (Z.abs (yb - ya)))
                (2 * Z.abs (xb - xa) - Z.abs (yb - ya)) ya xa
                (Z.abs (xb - xa)) [(xa, ya)]
                ltac:(lia) ltac:(lia) ltac:(lia) ltac:(lia))
      as (rest & -> & Hlen & Hall).
    split; [simpl; rewrite Hlen; f_equal; lia |].
    intros p Hp. apply elem_of_cons in Hp as [-> | Hp]; [simpl; lia |].
    rewrite Forall_forall in Hall.
    destruct (Hall p Hp) as (j & k & -> & Hj & Hk). simpl. nia.
Qed.

(** ** The quadratic Bezier: nothing to trim *)

(** Trimming changes nothing on runs of one pixel inside the rectangle. *)
Lemma trim_inside (w h : Z) (lines : list Scanline) :
  Forall (fun l => 0 <= y l < h /\ 0 <= x1 l /\ x1 l = x2 l /\ x2 l < w)
         lines ->
  trim lines w h = lines.
Proof.
  unfold trim. induction 1 as [| l lines Hl _ IH]; [reflexivity |].
  simpl. fold (omap (trimHelper w h) lines). rewrite IH.
  replace (trimHelper w h l) with (Some l); [reflexivity |].
  symmetry. apply trimHelper_Some. destruct l as [ly lx1 lx2 la].
  simpl in *. split; [lia |]. split; [lia |]. f_equal; lia.
Qed.

(** The runs that the loop of [rasterize] makes from control points inside
    the bitmap are inside the bitmap. *)
Lemma rasterizeLoop_inside (w h : Z) (cps : list point) :
  Forall (fun p => 0 <= fst p < w /\ 0 <= snd p < h) cps ->
  forall lines : list Scanline,
    Forall (fun l => 0 <= y l < h /\ 0 <= x1 l /\ x1 l = x2 l /\ x2 l < w)
           lines ->
    Forall (fun l => 0 <= y l < h /\ 0 <= x1 l /\ x1 l = x2 l /\ x2 l < w)
           (QuadraticBezier.rasterizeLoop cps lines).
Proof.
  induction 1 as [| m1 rest Hm1 Hrest IH]; intros lines Hall; simpl;
    [exact Hall |].
  apply IH. apply Forall_app. split; [exact Hall |].
  apply Forall_forall. intros l Hl.
  apply list_elem_of_fmap in Hl as (p & -> & Hp).
  destruct rest as [| next rest].
  - apply (proj2 (bresenham_points _ _ _ _)) in Hp. simpl. lia.
  - apply Forall_cons in Hrest as [Hnext _].
    apply (proj2 (bresenham_points _ _ _ _)) in Hp. simpl. lia.
Qed.

(** X8: For a shape the program can build, trimming drops and clips nothing:
    [rasterize] returns the runs of its loop as they are, one for each step
    of the three segments and four more, for the start of each segment and
    for the last control point joined to itself. *)
Theorem rasterize_run_count (model : Model) (q : QuadraticBezier) :
  0 < getWidth model < 2 ^ 31 -> 0 < getHeight model < 2 ^ 31 ->
  reachable model q ->
  exists p0 p1 p2 p3 : point,
    m_controlPoints q = [p0; p1; p2; p3]
    /\ QuadraticBezier.rasterize q
       = QuadraticBezier.rasterizeLoop (m_controlPoints q) []
    /\ Z.of_nat (length (QuadraticBezier.rasterize q))
       = steps p0 p1 + steps p1 p2 + steps p2 p3 + 4.
Proof.
  intros Hw Hh Hq.
  destruct (reachable_inv model q Hq) as (Hm & Hlen & Hall).
  assert (Hin : Forall (fun p => 0 <= fst p < getWidth model
                                 /\ 0 <= snd p < getHeight model)
                       (m_controlPoints q)).
  { eapply Forall_impl; [exact Hall |]. intros p Hp.
    destruct (clamped_inBounds model p ltac:(lia) ltac:(lia) Hp). lia. }
  assert (Hraster : QuadraticBezier.rasterize q
                    = QuadraticBezier.rasterizeLoop (m_controlPoints q) []).
  { unfold QuadraticBezier.rasterize. rewrite Hm, !int32_small by lia.
    apply trim_inside, rasterizeLoop_inside; [exact Hin | constructor]. }
  destruct (m_controlPoints q) as [| p0 [| p1 [| p2 [| p3 [| p4 rest]]]]];
    try discriminate Hlen.
  exists p0, p1, p2, p3. split; [reflexivity |]. split; [exact Hraster |].
  rewrite Hraster. simpl.
  rewrite !length_app, !length_map.
  rewrite !(proj1 (bresenham_points _ _ _ _)), !Z.sub_diag.
  unfold steps. simpl. lia.
Qed.

(** The run count of the sample shape. *)
Lemma rasterize_run_count_witness :
  0 < getWidth sampleModel < 2 ^ 31 /\ 0 < getHeight sampleModel < 2 ^ 31
  /\ reachable sampleModel sampleBezier
  /\ exists p0 p1 p2 p3 : point,
       m_controlPoints sampleBezier = [p0; p1; p2; p3]
       /\ QuadraticBezier.rasterize sampleBezier
          = QuadraticBezier.rasterizeLoop (m_controlPoints sampleBezier) []
       /\ Z.of_nat (length (QuadraticBezier.rasterize sampleBezier))
          = steps p0 p1 + steps p1 p2 + steps p2 p3 + 4.
Proof.
  split; [simpl; lia |]. split; [simpl; lia |].
  split; [exact reachable_sample |].
  apply (rasterize_run_count sampleModel sampleBezier);
    [simpl; lia | simpl; lia | exact reachable_sample].
Defined.

(** ** The model: what a blit leaves alone *)

Lemma pixelsOf_covers (lines : list Scanline) (px py : Z) :
  (px, py) ∈ core.pixelsOf lines <-> covers lines px py.
Proof.
  unfold core.pixelsOf, covers. split.
  - intros Hin. apply list_elem_of_In, in_flat_map in Hin as (l & Hl & Hin).
    apply list_elem_of_In in Hl, Hin.
    apply list_elem_of_fmap in Hin as (x & [= -> ->] & Hx).
    apply elem_of_seqZ in Hx. exists l. repeat split; try assumption; lia.
  - intros (l & Hl & Hy & Hx).
    apply list_elem_of_In, in_flat_map. exists l.
    split; [now apply list_elem_of_In |].
    apply list_elem_of_In, list_elem_of_fmap. exists px.
    split; [now subst py |]. apply elem_of_seqZ. lia.
Qed.

Lemma setPixel_shape (bm : Bitmap) (px py : Z) (c : rgba) :
  bmWidth (Bitmap.setPixel bm px py c) = bmWidth bm
  /\ bmHeight (Bitmap.setPixel bm px py c) = bmHeight bm
  /\ length (bmData (Bitmap.setPixel bm px py c)) = length (bmData bm).
Proof.
  unfold Bitmap.setPixel. destruct (Bitmap.index bm px py); simpl;
    [rewrite length_insert |]; auto.
Qed.

(** Blitting keeps the dimensions and the length of the buffer. *)
Lemma drawLines_shape (image : Bitmap) (color : rgba) (lines : list Scanline) :
  bmWidth (core.drawLines image color lines) = bmWidth image
  /\ bmHeight (core.drawLines image color lines) = bmHeight image
  /\ length (bmData (core.drawLines image color lines))
     = length (bmData image).
Proof.
  unfold core.drawLines. generalize (core.pixelsOf lines) as ps.
  intros ps. revert image.
  induction ps as [| p ps IH]; intros image; simpl; [auto |].
  destruct (IH (Bitmap.setPixel image (fst p) (snd p)
                  (core.blend color (Bitmap.getPixel image (fst p) (snd p)))))
    as (Hw & Hh & Hl).
  destruct (setPixel_shape image (fst p) (snd p)
              (core.blend color (Bitmap.getPixel image (fst p) (snd p))))
    as (Hw' & Hh' & Hl').
  rewrite Hw, Hh, Hl. auto.
Qed.

(** Blending a colour of alpha 0 gives the pixel back. *)
Lemma blend_transparent (cr cg cb : Z) (d : rgba) :
  core.blend (mkRgba cr cg cb 0) d = d.
Proof.
  destruct d as [dr dg db da]. unfold core.blend, core.roundDiv. simpl.
  f_equal.
  - rewrite Z.mul_0_r, Z.add_0_r, Z.sub_0_r.
    symmetry. apply Z.div_unique with 255; lia.
  - rewrite Z.mul_0_r, Z.add_0_r, Z.sub_0_r.
    symmetry. apply Z.div_unique with 255; lia.
  - rewrite Z.mul_0_r, Z.add_0_r, Z.sub_0_r.
    symmetry. apply Z.div_unique with 255; lia.
  - rewrite Z.add_0_r. symmetry. apply Z.div_unique with 255; lia.
Qed.

Lemma setPixel_same (bm : Bitmap) (px py : Z) :
  Bitmap.setPixel bm px py (Bitmap.getPixel bm px py) = bm.
Proof.
  unfold Bitmap.setPixel, Bitmap.getPixel.
  destruct (Bitmap.index bm px py) as [i |]; [| reflexivity].
  destruct bm as [w h data]. simpl. f_equal.
  destruct (data !! i) as [v |] eqn:Hv; simpl.
  - now apply list_insert_id.
  - apply list_insert_ge. now apply lookup_ge_None.
Qed.

(** Blitting a colour of alpha 0 leaves the image as it is. *)
Lemma drawLines_transparent (image : Bitmap) (cr cg cb : Z)
    (lines : list Scanline) :
  core.drawLines image (mkRgba cr cg cb 0) lines = image.
Proof.
  unfold core.drawLines. generalize (core.pixelsOf lines) as ps.
  induction ps as [| p ps IH]; simpl; [reflexivity |].
  now rewrite blend_transparent, setPixel_same.
Qed.

Lemma partialDelta_same (target image : Bitmap) (lines : list Scanline) :
  core.partialDelta target image image lines = 0.
Proof.
  unfold core.partialDelta. apply sum_map_zero. intros p _. lia.
Qed.

(** [differencePartial] over an unchanged canvas gives the score back. *)
Lemma differencePartial_same (target image : Bitmap) (score : R)
    (lines : list Scanline) :
  (0 <= score)%R -> 0 < core.rgbaCount target ->
  core.differencePartial target image image score lines = score.
Proof.
  intros Hs Hn. unfold core.differencePartial.
  rewrite partialDelta_same, Rplus_0_r.
  apply IZR_lt in Hn. set (count := IZR (core.rgbaCount target)) in *.
  rewrite Rmax_right
    by (apply Rmult_le_pos; [apply pow2_ge_0 | lra]).
  replace ((score * 255) ^ 2 * count / count)%R with ((score * 255) ^ 2)%R
    by (field; lra).
  rewrite sqrt_pow2 by lra. field.
Qed.

(** ** The model: further properties *)

Section Model.

Context {S : Type} `{Shape S}.

Variable bestHillClimbState :
  ShapeTypes -> Z -> Z -> Z -> Z -> Bitmap -> Bitmap -> Bitmap -> Rng
  -> @State S.
Variable threadRng : nat -> Rng.
Variable hardware_concurrency : Z.
Variable shapeTypes : ShapeTypes.
Variables alpha shapeCount maxShapeMutations passes : Z.

Local Abbreviation worker m k :=
  (bestHillClimbState shapeTypes alpha shapeCount maxShapeMutations passes
     (m_target m) (m_current m) (m_current m) (threadRng k)).

Lemma launch_seq (n : nat) :
  forall (i : nat) (m : ModelImpl) (futures : list State),
    launch bestHillClimbState threadRng n i shapeTypes alpha shapeCount
           maxShapeMutations passes m futures
    = futures ++ map (fun k => worker m k) (seq i n).
Proof.
  induction n as [| n IH]; intros i m futures; simpl.
  - now rewrite app_nil_r.
  - rewrite IH, <- app_assoc. reflexivity.
Qed.

Lemma getHillClimbState_seq (m : ModelImpl) :
  getHillClimbState bestHillClimbState threadRng hardware_concurrency
    shapeTypes alpha shapeCount maxShapeMutations passes m
  = map (fun k => worker m k)
        (seq 0 (Z.to_nat (Z.max 1 hardware_concurrency))).
Proof.
  unfold getHillClimbState. cbv zeta.
  now rewrite collect_futures, app_nil_l, launch_seq.
Qed.

(** X10: [getHillClimbState] returns the states in launch order: the state at
    position [k] is what the worker launched in position [k] returned, for
    each of the [max 1 hardware_concurrency] workers; every worker was given
    the target, the canvas, and a copy of the canvas as its buffer. *)
Theorem getHillClimbState_order (m : ModelImpl) (k : nat) :
  (k < Z.to_nat (Z.max 1 hardware_concurrency))%nat ->
  getHillClimbState bestHillClimbState threadRng hardware_concurrency
    shapeTypes alpha shapeCount maxShapeMutations passes m !! k
  = Some (worker m k).
Proof.
  intros Hk. rewrite getHillClimbState_seq.
  rewrite list_lookup_fmap, lookup_seq_lt by exact Hk. reflexivity.
Qed.

(** X11: When the hardware concurrency is unknown (0) or 1, a step runs one
    worker and draws the shape that worker returns. *)
Theorem step_single_worker (m : ModelImpl) :
  hardware_concurrency <= 1 ->
  step bestHillClimbState threadRng hardware_concurrency shapeTypes alpha
       shapeCount maxShapeMutations passes m
  = Some ([fst (drawShape m (m_shape (worker m 0%nat)) alpha)],
          snd (drawShape m (m_shape (worker m 0%nat)) alpha)).
Proof.
  intros Hhw. unfold step. cbv zeta.
  rewrite getHillClimbState_seq.
  replace (Z.max 1 hardware_concurrency) with 1 by lia. simpl.
  destruct (drawShape m (m_shape (worker m 0%nat)) alpha). reflexivity.
Qed.

(** X12: [drawShape] leaves the target as it is, keeps the dimensions and the
    buffer length of the canvas, and changes no pixel outside the runs of
    the shape. *)
Theorem drawShape_frame (m : ModelImpl) (sh : S) (px py : Z) :
  ~ covers (rasterize sh) px py ->
  m_target (snd (drawShape m sh alpha)) = m_target m
  /\ bmWidth (m_current (snd (drawShape m sh alpha))) = bmWidth (m_current m)
  /\ bmHeight (m_current (snd (drawShape m sh alpha)))
     = bmHeight (m_current m)
  /\ length (bmData (m_current (snd (drawShape m sh alpha))))
     = length (bmData (m_current m))
  /\ Bitmap.getPixel (m_current (snd (drawShape m sh alpha))) px py
     = Bitmap.getPixel (m_current m) px py.
Proof.
  intros Hout. simpl.
  destruct (drawLines_shape (m_current m)
              (core.computeColor (m_target m) (m_current m) (rasterize sh)
                                 alpha) (rasterize sh)) as (Hw & Hh & Hl).
  repeat split; try assumption.
  apply (drawLines_frame _ _ _ (px, py)).
  intros Hin. apply Hout. now apply pixelsOf_covers.
Qed.

(** X13: [drawShape] with alpha 0 changes nothing: the colour is (0, 0, 0, 0),
    the model comes back as it was and the score returned is the last
    score. *)
Theorem drawShape_alpha_zero (m : ModelImpl) (sh : S) :
  (0 <= m_lastScore m)%R -> 0 < core.rgbaCount (m_target m) ->
  drawShape m sh 0 = (mkShapeResult (m_lastScore m) (mkRgba 0 0 0 0) sh, m).
Proof.
  intros Hs Hn. unfold drawShape. cbv zeta.
  change (core.computeColor (m_target m) (m_current m) (rasterize sh) 0)
    with (mkRgba 0 0 0 0).
  rewrite drawLines_transparent, differencePartial_same by assumption.
  destruct m. reflexivity.
Qed.

End Model.

(** ** The model: what every operation keeps *)

Lemma differencePartial_nonneg (target before after : Bitmap) (score : R)
    (lines : list Scanline) :
  (0 <= core.differencePartial target before after score lines)%R.
Proof.
  unfold core.differencePartial.
  apply Rmult_le_pos; [apply sqrt_pos |].
  left. apply Rinv_0_lt_compat. lra.
Qed.

Section Invariant.

Context {S : Type} `{Shape S}.

Variable bestHillClimbState :
  ShapeTypes -> Z -> Z -> Z -> Z -> Bitmap -> Bitmap -> Bitmap -> Rng
  -> @State S.
Variable threadRng : nat -> Rng.
Variable hardware_concurrency : Z.

Local Abbreviation evolves' :=
  (evolves bestHillClimbState threadRng hardware_concurrency).

Lemma drawShape_inv (m : ModelImpl) (sh : S) (alpha : Z) :
  m_target (snd (drawShape m sh alpha)) = m_target m
  /\ bmWidth (m_current (snd (drawShape m sh alpha))) = bmWidth (m_current m)
  /\ bmHeight (m_current (snd (drawShape m sh alpha)))
     = bmHeight (m_current m)
  /\ length (bmData (m_current (snd (drawShape m sh alpha))))
     = length (bmData (m_current m))
  /\ (0 <= m_lastScore (snd (drawShape m sh alpha)))%R.
Proof.
  simpl.
  destruct (drawLines_shape (m_current m)
              (core.computeColor (m_target m) (m_current m) (rasterize sh)
                                 alpha) (rasterize sh)) as (Hw & Hh & Hl).
  repeat split; try assumption. apply differencePartial_nonneg.
Qed.

Lemma evolves_inv (m0 m : ModelImpl) :
  evolves' m0 m ->
  m_target m = m_target m0
  /\ bmWidth (m_current m) = bmWidth (m_current m0)
  /\ bmHeight (m_current m) = bmHeight (m_current m0)
  /\ length (bmData (m_current m)) = length (bmData (m_current m0))
  /\ ((0 <= m_lastScore m0)%R -> (0 <= m_lastScore m)%R).
Proof.
  induction 1 as [| m bg _ IH | m sh alpha _ IH | m sh color _ IH
                  | m m' shapeTypes alpha shapeCount maxShapeMutations passes
                      results _ IH Hstep].
  - auto.
  - destruct IH as (Ht & Hw & Hh & Hl & _). simpl.
    rewrite length_replicate. repeat split; try assumption.
    intros _. apply differenceFull_nonneg.
  - destruct IH as (Ht & Hw & Hh & Hl & _).
    destruct (drawShape_inv m sh alpha) as (Ht' & Hw' & Hh' & Hl' & Hs').
    rewrite Ht', Hw', Hh', Hl'. auto.
  - destruct IH as (Ht & Hw & Hh & Hl & _). simpl.
    destruct (drawLines_shape (m_current m) color (rasterize sh))
      as (Hw' & Hh' & Hl').
    rewrite Hw', Hh', Hl'. repeat split; try assumption.
    intros _. apply differencePartial_nonneg.
  - destruct IH as (Ht & Hw & Hh & Hl & _).
    destruct (step_unfold bestHillClimbState threadRng hardware_concurrency
                shapeTypes alpha shapeCount maxShapeMutations passes m)
      as (st & _ & Hstep').
    assert (Hm' : m' = snd (drawShape m (m_shape st) alpha))
      by (rewrite Hstep' in Hstep; congruence).
    rewrite Hm'.
    destruct (drawShape_inv m (m_shape st) alpha)
      as (Ht' & Hw' & Hh' & Hl' & Hs').
    rewrite Ht', Hw', Hh', Hl'. auto.
Qed.

(** X15: Whatever sequence of [reset], [drawShape] and [step] a constructed
    model goes through, its target is the bitmap it was constructed for, its
    canvas has the dimensions of the target, and its score is not
    negative. *)
Theorem model_invariant (target : Bitmap) (m0 m : ModelImpl) :
  constructed target m0 -> evolves' m0 m ->
  m_target m = target
  /\ bmWidth (m_current m) = bmWidth target
  /\ bmHeight (m_current m) = bmHeight target
  /\ (0 <= m_lastScore m)%R.
Proof.
  intros Hc He.
  destruct (evolves_inv m0 m He) as (Ht & Hw & Hh & _ & Hs).
  rewrite Ht, Hw, Hh.
  destruct Hc as [[bg ->] | [initial Hinit]].
  - simpl. repeat split. apply Hs, differenceFull_nonneg.
  - unfold ModelImpl_new_initial in Hinit.
    destruct (Z.eqb_spec (bmWidth target) (bmWidth initial)) as [Hw0 |];
      [| discriminate].
    destruct (Z.eqb_spec (bmHeight target) (bmHeight initial)) as [Hh0 |];
      [| discriminate].
    injection Hinit as <-. simpl in *.
    repeat split; try congruence. apply Hs, differenceFull_nonneg.
Qed.

(** X16: [reset] undoes everything drawn: after any sequence of [reset],
    [drawShape] and [step], a model constructed with a background colour is
    brought by [reset] to the model the constructor gives for the new
    colour. *)
Theorem reset_restores (target : Bitmap) (backgroundColor0 : rgba)
    (m : ModelImpl) (backgroundColor : rgba) :
  evolves' (ModelImpl_new target backgroundColor0) m ->
  reset m backgroundColor = ModelImpl_new target backgroundColor.
Proof.
  intros He.
  destruct (evolves_inv _ m He) as (Ht & Hw & Hh & Hl & _).
  simpl in Ht, Hw, Hh, Hl. rewrite length_replicate in Hl.
  unfold reset, ModelImpl_new, Bitmap.fill, Bitmap.new.
  now rewrite Ht, Hw, Hh, Hl.
Qed.

End Invariant.

(** X17: The zero-dimension guard of [getAspectRatio]: the ratio is 0 exactly
    when the width or the height of the target is 0. *)
Theorem getAspectRatio_zero (m : ModelImpl) :
  getAspectRatio m = 0%R
  <-> ModelImpl_getWidth m = 0 \/ ModelImpl_getHeight m = 0.
Proof.
  unfold getAspectRatio, ModelImpl_getWidth, ModelImpl_getHeight.
  destruct (Z.eqb_spec (bmWidth (m_target m)) 0) as [Hw | Hw]; simpl;
    [tauto |].
  destruct (Z.eqb_spec (bmHeight (m_target m)) 0) as [Hh | Hh]; simpl;
    [tauto |].
  assert (HW : IZR (bmWidth (m_target m)) <> 0%R)
    by (apply not_0_IZR; exact Hw).
  assert (HH : IZR (bmHeight (m_target m)) <> 0%R)
    by (apply not_0_IZR; exact Hh).
  split; [| tauto].
  intros Hq. exfalso. apply HW.
  apply (Rmult_eq_compat_r (IZR (bmHeight (m_target m)))) in Hq.
  rewrite Rmult_0_l in Hq. rewrite <- Hq. field. exact HH.
Qed.

(** ** The model: the further properties on the samples *)

(** Three workers on the transparent model. *)
Lemma getHillClimbState_order_witness :
  (2 < Z.to_nat (Z.max 1 3))%nat
  /\ getHillClimbState sampleWorker sampleThreadRng 3 QUADRATIC_BEZIER 128
       1 0 1 transparent !! 2%nat
     = Some (sampleWorker QUADRATIC_BEZIER 128 1 0 1 (m_target transparent)
               (m_current transparent) (m_current transparent)
               (sampleThreadRng 2)).
Proof.
  split; [simpl; lia |].
  apply (getHillClimbState_order sampleWorker sampleThreadRng 3
           QUADRATIC_BEZIER 128 1 0 1 transparent 2).
  simpl. lia.
Defined.

(** A step with unknown hardware concurrency. *)
Lemma step_single_worker_witness :
  0 <= 1
  /\ step sampleWorker sampleThreadRng 0 QUADRATIC_BEZIER 128 1 0 1
          transparent
     = Some ([fst (drawShape transparent
                     (m_shape (sampleWorker QUADRATIC_BEZIER 128 1 0 1
                                 (m_target transparent)
                                 (m_current transparent)
                                 (m_current transparent)
                                 (sampleThreadRng 0))) 128)],
             snd (drawShape transparent
                    (m_shape (sampleWorker QUADRATIC_BEZIER 128 1 0 1
                                (m_target transparent)
                                (m_current transparent)
                                (m_current transparent)
                                (sampleThreadRng 0))) 128)).
Proof.
  split; [lia |].
  apply (step_single_worker sampleWorker sampleThreadRng 0 QUADRATIC_BEZIER
           128 1 0 1 transparent).
  lia.
Defined.

Lemma sample_uncovered :
  ~ covers (rasterize sampleBezier) 1 2.
Proof.
  intros (l & Hin & Hy & Hx).
  apply list_elem_of_In in Hin. vm_compute in Hin.
  repeat (destruct Hin as [<- | Hin]; [simpl in Hy, Hx; lia |]).
  exact Hin.
Defined.

(** The sample shape drawn on its model: the pixel (1, 2) is not covered. *)
Lemma drawShape_frame_witness :
  ~ covers (rasterize sampleBezier) 1 2
  /\ m_target (snd (drawShape sampleImpl sampleBezier 128))
     = m_target sampleImpl
  /\ bmWidth (m_current (snd (drawShape sampleImpl sampleBezier 128)))
     = bmWidth (m_current sampleImpl)
  /\ bmHeight (m_current (snd (drawShape sampleImpl sampleBezier 128)))
     = bmHeight (m_current sampleImpl)
  /\ length (bmData (m_current (snd (drawShape sampleImpl sampleBezier 128))))
     = length (bmData (m_current sampleImpl))
  /\ Bitmap.getPixel (m_current (snd (drawShape sampleImpl sampleBezier 128)))
                     1 2
     = Bitmap.getPixel (m_current sampleImpl) 1 2.
Proof.
  split; [exact sample_uncovered |].
  apply (drawShape_frame 128 sampleImpl sampleBezier 1 2).
  exact sample_uncovered.
Defined.

Lemma blackOnWhite_score_nonneg : (0 <= m_lastScore blackOnWhite)%R.
Proof. apply differenceFull_nonneg. Defined.

(** [drawShape] with alpha 0 on the black and white model. *)
Lemma drawShape_alpha_zero_witness :
  (0 <= m_lastScore blackOnWhite)%R
  /\ 0 < core.rgbaCount (m_target blackOnWhite)
  /\ drawShape blackOnWhite unitBezier 0
     = (mkShapeResult (m_lastScore blackOnWhite) (mkRgba 0 0 0 0) unitBezier,
        blackOnWhite).
Proof.
  split; [exact blackOnWhite_score_nonneg |]. split; [reflexivity |].
  apply (drawShape_alpha_zero blackOnWhite unitBezier);
    [exact blackOnWhite_score_nonneg | reflexivity].
Defined.

Lemma sampleHistory_evolves :
  evolves sampleWorker sampleThreadRng 1 blackOnWhite sampleHistory.
Proof.
  apply evolves_drawShape, evolves_reset.
  apply (evolves_drawShape sampleWorker sampleThreadRng 1 blackOnWhite
           blackOnWhite unitBezier 128).
  apply evolves_refl.
Defined.

Lemma blackOnWhite_constructed :
  constructed (Bitmap.new 1 1 (mkRgba 0 0 0 255)) blackOnWhite.
Proof. left. exists (mkRgba 255 255 255 255). reflexivity. Defined.

(** The invariant after two drawings and a reset. *)
Lemma model_invariant_witness :
  constructed (Bitmap.new 1 1 (mkRgba 0 0 0 255)) blackOnWhite
  /\ evolves sampleWorker sampleThreadRng 1 blackOnWhite sampleHistory
  /\ m_target sampleHistory = Bitmap.new 1 1 (mkRgba 0 0 0 255)
  /\ bmWidth (m_current sampleHistory)
     = bmWidth (Bitmap.new 1 1 (mkRgba 0 0 0 255))
  /\ bmHeight (m_current sampleHistory)
     = bmHeight (Bitmap.new 1 1 (mkRgba 0 0 0 255))
  /\ (0 <= m_lastScore sampleHistory)%R.
Proof.
  split; [exact blackOnWhite_constructed |].
  split; [exact sampleHistory_evolves |].
  exact (model_invariant sampleWorker sampleThreadRng 1 _ _ _
           blackOnWhite_constructed sampleHistory_evolves).
Defined.

(** A reset after two drawings and a reset. *)
Lemma reset_restores_witness :
  evolves sampleWorker sampleThreadRng 1 blackOnWhite sampleHistory
  /\ reset sampleHistory (mkRgba 1 2 3 255)
     = ModelImpl_new (Bitmap.new 1 1 (mkRgba 0 0 0 255)) (mkRgba 1 2 3 255).
Proof.
  split; [exact sampleHistory_evolves |].
  exact (reset_restores sampleWorker sampleThreadRng 1 _ _ _ _
           sampleHistory_evolves).
Defined.
